(** * Error suppression and mitigation: circuit transformers

    A shallow embedding of [circuit_transformers.py]: the Pauli twirling
    set search ([generate_pauli_twirling_sets]), the two transpiler passes
    ([Local2qFolding], [PauliTwirling]) and the helper [aggregate_data].

    Conventions of the embedding.
    - A Python float is a binary64 number.  It is read as the rational
      number it stands for, and an operation on floats gives the exact
      result rounded to the nearest binary64 number, to the one with an
      even significand when two are as near ([Binary64.round]).  This is
      the arithmetic of the folding pass and of [aggregate_data].
      Overflow, subnormal numbers, signed zeros and NaN are not
      modelled: the numbers stay in the normal range.  The number of
      gates to fold is also evaluated with the primitive floats of the
      kernel ([num_2q_gates_to_be_folded_binary64]).
    - The entries of the matrices are exact, in the field Q(sqrt 2)(i).
      The matrices of cx and cz and of the Pauli gates have small
      integer entries, on which double-precision arithmetic is exact as
      well.  The global phase of a circuit graph is a real number ([R]).
    - The qiskit objects the passes consume ([DAGCircuit], the gate
      library, [Operator]) and the numpy random generators are modelled by
      the part of their behaviour the passes use.  A graph is a list of
      operation nodes without classical conditions; a random generator
      is a stream of raw outputs, so only the range of a draw is
      modelled and not its distribution.
    - A loop over a Python set follows an order that the program does not
      fix; it is a parameter of the passes ([table_order]).
    - Python exceptions are values of [exn]; a computation that can raise
      returns a [result]. *)

From Stdlib Require Import ZArith QArith Qround Qcanon Qpower Reals Psatz.
From Stdlib Require PrimFloat FloatOps SpecFloat Uint63.
From stdpp Require Import base list gmap strings.

(** ** Exceptions *)

Inductive exn : Type :=
| KeyError
| AssertionError
| ValueError
| IndexError
| ZeroDivisionError
| DAGCircuitError.

Inductive result (A : Type) : Type :=
| Ok (a : A)
| Raise (e : exn).
Arguments Ok {A} a.
Arguments Raise {A} e.

Global Instance result_ret : MRet result := fun A a => Ok a.
Global Instance result_bind : MBind result := fun A B k m =>
  match m with
  | Ok a => k a
  | Raise e => Raise e
  end.

(** ** Binary64 arithmetic

    A finite binary64 number is m * 2^e with an integer significand m of
    at most 53 bits.  The nearest one to a rational q > 0 has the
    exponent e = floor(log2 q) - 52 and the significand the integer
    nearest to q / 2^e, the even one when q / 2^e is half-way between
    two integers. *)

Module Binary64.

(** [floor (log2 q)], for [q > 0]: it is [l] or [l - 1] for the
    difference [l] of the bit lengths of the numerator and of the
    denominator. *)
Definition floor_log2 (q : Q) : Z :=
  let l := (Z.log2 (Qnum q) - Z.log2 (Zpos (Qden q)))%Z in
  if Qle_bool (2 ^ l) q then l else (l - 1)%Z.

(** The nearest integer, the even one of the two when [q] is half-way. *)
Definition round_half_even (q : Q) : Z :=
  let f := Qfloor q in
  match (q - inject_Z f ?= 1 # 2)%Q with
  | Lt => f
  | Gt => (f + 1)%Z
  | Eq => if Z.even f then f else (f + 1)%Z
  end.

(** The nearest binary64 number to [q > 0]. *)
Definition round_pos (q : Q) : Q :=
  let e := (floor_log2 q - 52)%Z in
  Qred (inject_Z (round_half_even (q / 2 ^ e)) * 2 ^ e).

(** The nearest binary64 number: [float(q)] for a decimal or an integer
    [q], and the rounding of every operation. *)
Definition round (q : Q) : Q :=
  let q := Qred q in
  match Qnum q with
  | Z0 => 0
  | Zpos _ => round_pos q
  | Zneg _ => - round_pos (- q)
  end.

Definition add (x y : Q) : Q := round (x + y).
Definition mul (x y : Q) : Q := round (x * y).
Definition div (x y : Q) : Q := round (x / y).

(** The unit roundoff, 2^-53. *)
Definition u : Q := 1 # 9007199254740992.

End Binary64.

(** ** Exact numbers for matrix entries

    Every entry of the matrices of I, X, Y, Z, CX, CZ and ECR lies in
    Q(sqrt 2)(i).  [Qr2] is Q(sqrt 2): [Qr2.mk a b] stands for
    [a + b * sqrt 2]. *)

Module Qr2.

Record t : Type := mk { rat : Q; irr : Q }.

Definition zero : t := mk 0 0.
Definition one : t := mk 1 0.
Definition of_Q (q : Q) : t := mk q 0.
(** 1 / sqrt 2 = sqrt 2 / 2 *)
Definition inv_sqrt2 : t := mk 0 (1 # 2).

Definition add (x y : t) : t :=
  mk (Qred (rat x + rat y)) (Qred (irr x + irr y)).
Definition opp (x : t) : t := mk (Qred (- rat x)) (Qred (- irr x)).
Definition sub (x y : t) : t := add x (opp y).
Definition mul (x y : t) : t :=
  mk (Qred (rat x * rat y + (2 # 1) * (irr x * irr y)))
     (Qred (rat x * irr y + irr x * rat y)).

Definition eqb (x y : t) : bool :=
  Qeq_bool (rat x) (rat y) && Qeq_bool (irr x) (irr y).

(** Sign of [a + b * sqrt 2], decided on squares when [a] and [b] have
    opposite signs. *)
Definition sgn (x : t) : comparison :=
  let a := rat x in
  let b := irr x in
  match (a ?= 0)%Q, (b ?= 0)%Q with
  | Eq, c => c
  | c, Eq => c
  | Gt, Gt => Gt
  | Lt, Lt => Lt
  | Gt, Lt => (a * a ?= (2 # 1) * (b * b))%Q
  | Lt, Gt => ((2 # 1) * (b * b) ?= a * a)%Q
  end.

Definition ltb (x y : t) : bool :=
  match sgn (sub x y) with Lt => true | _ => false end.
Definition leb (x y : t) : bool :=
  match sgn (sub x y) with Gt => false | _ => true end.

End Qr2.

(** Complex numbers over Q(sqrt 2). *)
Module Cx.

Record t : Type := mk { re : Qr2.t; im : Qr2.t }.

Definition zero : t := mk Qr2.zero Qr2.zero.
Definition one : t := mk Qr2.one Qr2.zero.
Definition i : t := mk Qr2.zero Qr2.one.
Definition of_Qr2 (x : Qr2.t) : t := mk x Qr2.zero.

Definition add (x y : t) : t := mk (Qr2.add (re x) (re y)) (Qr2.add (im x) (im y)).
Definition opp (x : t) : t := mk (Qr2.opp (re x)) (Qr2.opp (im x)).
Definition sub (x y : t) : t := add x (opp y).
Definition mul (x y : t) : t :=
  mk (Qr2.sub (Qr2.mul (re x) (re y)) (Qr2.mul (im x) (im y)))
     (Qr2.add (Qr2.mul (re x) (im y)) (Qr2.mul (im x) (re y))).

(** |x|^2 *)
Definition abs2 (x : t) : Qr2.t :=
  Qr2.add (Qr2.mul (re x) (re x)) (Qr2.mul (im x) (im x)).

Definition eqb (x y : t) : bool := Qr2.eqb (re x) (re y) && Qr2.eqb (im x) (im y).

End Cx.

(** ** Matrices (numpy arrays of complex numbers), row major *)

Module Mat.

Definition t : Type := list (list Cx.t).

Definition dot (r c : list Cx.t) : Cx.t :=
  foldr Cx.add Cx.zero (zip_with Cx.mul r c).

Fixpoint transpose (m : t) : t :=
  match m with
  | [] => []
  | [r] => map (fun x => [x]) r
  | r :: m' => zip_with cons r (transpose m')
  end.

Definition mul (a b : t) : t :=
  let bt := transpose b in
  map (fun r => map (dot r) bt) a.

Definition kron (a b : t) : t :=
  flat_map (fun ra => map (fun rb => flat_map (fun x => map (Cx.mul x) rb) ra) b) a.

Definition scale (c : Cx.t) (a : t) : t := map (map (Cx.mul c)) a.
Definition sub (a b : t) : t := zip_with (zip_with Cx.sub) a b.

Definition eqb (a b : t) : bool :=
  bool_decide (length a = length b) &&
  forallb (fun rr => bool_decide (length rr.1 = length rr.2) &&
                     forallb (fun xy => Cx.eqb xy.1 xy.2) (zip rr.1 rr.2))
          (zip a b).

(** Square of the Frobenius norm: the sum of |a_ij|^2. *)
Definition frobenius2 (a : t) : Qr2.t :=
  foldr Qr2.add Qr2.zero (map Cx.abs2 (concat a)).

End Mat.

(** ** Gate catalog (qiskit.circuit.library)

    Matrices as [to_matrix] returns them.  Qubit 0 is the least
    significant index of a two-qubit matrix, and a controlled gate has
    qubit 0 as its control. *)

Inductive PauliGate : Type := IGate | ZGate | XGate | YGate.
Inductive TwoQubitGate : Type := CXGate | CZGate | ECRGate.

Global Instance PauliGate_eq_dec : EqDecision PauliGate.
Proof. solve_decision. Defined.
Global Instance TwoQubitGate_eq_dec : EqDecision TwoQubitGate.
Proof. solve_decision. Defined.

Definition c0 : Cx.t := Cx.zero.
Definition c1 : Cx.t := Cx.one.
Definition ci : Cx.t := Cx.i.
Definition cm1 : Cx.t := Cx.opp Cx.one.
Definition cmi : Cx.t := Cx.opp Cx.i.
(** 1/sqrt 2, i/sqrt 2 and their opposites *)
Definition ch : Cx.t := Cx.of_Qr2 Qr2.inv_sqrt2.
Definition chi : Cx.t := Cx.mul ch Cx.i.
Definition cmhi : Cx.t := Cx.opp chi.

Definition pauli_matrix (p : PauliGate) : Mat.t :=
  match p with
  | IGate => [[c1; c0]; [c0; c1]]
  | ZGate => [[c1; c0]; [c0; cm1]]
  | XGate => [[c0; c1]; [c1; c0]]
  | YGate => [[c0; cmi]; [ci; c0]]
  end.

Definition two_qubit_matrix (g : TwoQubitGate) : Mat.t :=
  match g with
  | CXGate => [[c1; c0; c0; c0]; [c0; c0; c0; c1]; [c0; c0; c1; c0]; [c0; c1; c0; c0]]
  | CZGate => [[c1; c0; c0; c0]; [c0; c1; c0; c0]; [c0; c0; c1; c0]; [c0; c0; c0; cm1]]
  | ECRGate => [[c0; ch; c0; chi]; [ch; c0; cmhi; c0]; [c0; chi; c0; ch]; [cmhi; c0; ch; c0]]
  end.

(** ** Phases

    The two values the search assigns to [phase]: the integer [0] and
    [np.pi]. *)

Inductive Phase : Type := Phase0 | PhasePi.

Global Instance Phase_eq_dec : EqDecision Phase.
Proof. solve_decision. Defined.

Definition phase_angle (p : Phase) : R :=
  match p with
  | Phase0 => 0%R
  | PhasePi => PI
  end.

(** e^(i * phase) *)
Definition phase_factor (p : Phase) : Cx.t :=
  match p with
  | Phase0 => c1
  | PhasePi => cm1
  end.

(** ** Two-qubit circuits and their operator ([Operator.from_circuit]) *)

Definition identity2 : Mat.t := pauli_matrix IGate.
Definition identity4 : Mat.t := Mat.kron identity2 identity2.

(** An instruction of a two-qubit circuit: a matrix and the qubits it is
    appended on. *)
Inductive Qargs2 : Type := OnQubit0 | OnQubit1 | OnQubits01.

Record QuantumCircuit : Type := mkQuantumCircuit {
  qc_data : list (Mat.t * Qargs2);
  qc_global_phase : Phase
}.

Definition embed (mq : Mat.t * Qargs2) : Mat.t :=
  match mq.2 with
  | OnQubit0 => Mat.kron identity2 mq.1
  | OnQubit1 => Mat.kron mq.1 identity2
  | OnQubits01 => mq.1
  end.

Definition operator_from_circuit (qc : QuantumCircuit) : Mat.t :=
  Mat.scale (phase_factor (qc_global_phase qc))
            (foldl (fun u mq => Mat.mul (embed mq) u) identity4 (qc_data qc)).

(** ** Numerical comparisons

    [np.linalg.norm] is the Frobenius norm; the tests on it are made on
    its square, which stays in Q(sqrt 2): for [n >= 0],
    [n < e] iff [n^2 < e^2], and [|n - 4| < e] iff [(4-e)^2 < n^2 < (4+e)^2]. *)

Definition tol_search : Q := 1 / 1000000000000000.      (* 1e-15 *)
Definition tol_spec : Q := 1 / 1000000000000.            (* 1e-12 *)
Definition atol_default : Q := 1 / 100000000.            (* Operator.atol = 1e-8 *)
Definition rtol_default : Q := 1 / 100000.               (* Operator.rtol = 1e-5 *)

Definition norm_lt (norm2 : Qr2.t) (e : Q) : bool :=
  Qr2.ltb norm2 (Qr2.of_Q (e * e)).

Definition norm_minus_lt (norm2 : Qr2.t) (c e : Q) : bool :=
  Qr2.ltb (Qr2.of_Q ((c - e) * (c - e))) norm2 &&
  Qr2.ltb norm2 (Qr2.of_Q ((c + e) * (c + e))).

(** [|a - b| <= atol + rtol * |b|], the test of [np.allclose], on squares. *)
Definition isclose (a b : Cx.t) : bool :=
  let d2 := Cx.abs2 (Cx.sub a b) in
  let b2 := Cx.abs2 b in
  let l := Qr2.sub d2 (Qr2.add (Qr2.of_Q (atol_default * atol_default))
                               (Qr2.mul (Qr2.of_Q (rtol_default * rtol_default)) b2)) in
  Qr2.leb l Qr2.zero ||
  Qr2.leb (Qr2.mul l l)
          (Qr2.mul (Qr2.of_Q ((4 # 1) * (atol_default * atol_default) * (rtol_default * rtol_default))) b2).

(** [Operator.__eq__] *)
Definition operator_eq (a b : Mat.t) : bool :=
  bool_decide (length a = length b) &&
  forallb (fun rr => bool_decide (length rr.1 = length rr.2) &&
                     forallb (fun xy => isclose xy.1 xy.2) (zip rr.1 rr.2))
          (zip a b).

(** ** The twirling set search *)

Definition PauliQuad : Type := PauliGate * PauliGate * PauliGate * PauliGate.
Definition TwirlSet : Type := PauliQuad * Phase.

Definition two_qubit_gates : gmap string TwoQubitGate :=
  {[ "cx" := CXGate; "cz" := CZGate; "ecr" := ECRGate ]}.

Definition operator_list : list PauliGate := [IGate; ZGate; XGate; YGate].

(** [itertools.product(l, repeat=4)] *)
Definition product4 {A} (l : list A) : list (A * A * A * A) :=
  flat_map (fun a => flat_map (fun b => flat_map (fun c =>
    map (fun d => (a, b, c, d)) l) l) l) l.

(** The circuit built for one quadruple. *)
Definition twirled_circuit (g : TwoQubitGate) (gates : PauliQuad) : QuantumCircuit :=
  let '(g0, g1, g2, g3) := gates in
  mkQuantumCircuit
    [ (pauli_matrix g0, OnQubit0);
      (pauli_matrix g1, OnQubit1);
      (two_qubit_matrix g, OnQubits01);
      (pauli_matrix g2, OnQubit0);
      (pauli_matrix g3, OnQubit1) ]
    Phase0.

Definition add_global_phase (qc : QuantumCircuit) (p : Phase) : QuantumCircuit :=
  mkQuantumCircuit (qc_data qc)
    (match qc_global_phase qc, p with
     | Phase0, q => q
     | q, Phase0 => q
     | PhasePi, PhasePi => Phase0
     end).

(** One iteration of the loop over the quadruples. *)
Definition twirl_search_step (g : TwoQubitGate) (target_unitary : Mat.t)
    (twirling_sets : list TwirlSet) (gates : PauliQuad) : result (list TwirlSet) :=
  let qc := twirled_circuit g gates in
  let norm2 := Mat.frobenius2 (Mat.sub (operator_from_circuit qc) target_unitary) in
  let phase :=
    if norm_lt norm2 tol_search then Some Phase0
    else if norm_minus_lt norm2 (4 # 1) tol_search then Some PhasePi
    else None in
  match phase with
  | Some phase =>
      let qc := add_global_phase qc phase in
      if operator_eq (operator_from_circuit qc) target_unitary then
        let twirl_set := (gates, phase) in
        Ok (if bool_decide (twirl_set ∈ twirling_sets) then twirling_sets
            else twirling_sets ++ [twirl_set])
      else Raise AssertionError
  | None => Ok twirling_sets
  end.

Definition generate_pauli_twirling_sets (two_qubit_gate : string) : result (list TwirlSet) :=
  match two_qubit_gates !! two_qubit_gate with
  | None => Raise KeyError
  | Some g =>
      let target_unitary := two_qubit_matrix g in
      foldl (fun acc gates => twirling_sets ← acc; twirl_search_step g target_unitary twirling_sets gates)
            (Ok []) (product4 operator_list)
  end.

(** ** Reading the exact numbers as real and complex numbers *)

Definition Qr2_to_R (x : Qr2.t) : R :=
  (Q2R (Qr2.rat x) + Q2R (Qr2.irr x) * sqrt 2)%R.

(** Distance test of the specification: Frobenius distance below [e]. *)
Definition within_tolerance (a b : Mat.t) (e : Q) : bool :=
  norm_lt (Mat.frobenius2 (Mat.sub a b)) e.

(** The matrix of the five-gate sequence of a quadruple. *)
Definition sequence_matrix (g : TwoQubitGate) (gates : PauliQuad) : Mat.t :=
  operator_from_circuit (twirled_circuit g gates).

(** The square of the Frobenius distance of two matrices. *)
Definition distance2 (a b : Mat.t) : Qr2.t := Mat.frobenius2 (Mat.sub a b).

(** An entry reproduces the gate: exactly, so at distance zero, hence
    within the tolerance. *)
Definition entry_reproduces (g : TwoQubitGate) (entry : TwirlSet) : bool :=
  let m := Mat.scale (phase_factor entry.2) (sequence_matrix g entry.1) in
  Mat.eqb m (two_qubit_matrix g) &&
  Qr2.eqb (distance2 m (two_qubit_matrix g)) Qr2.zero &&
  within_tolerance m (two_qubit_matrix g) tol_spec.

(** ** Random number generators (numpy.random)

    A generator is read as the stream of raw outputs of its bit generator
    and a position in it; a draw reduces the next raw output into the
    requested range and advances the position.  Only the range of a draw
    is modelled, not its distribution. *)

Record BitGenerator : Type := mkBitGenerator {
  stream : nat → nat;
  position : nat
}.

Definition next_raw (g : BitGenerator) : nat * BitGenerator :=
  (stream g (position g), mkBitGenerator (stream g) (S (position g))).

(** [Generator.integers(low, high)]: an integer in [low, high). *)
Definition integers (low high : nat) (g : BitGenerator) : result (nat * BitGenerator) :=
  if decide (high ≤ low) then Raise ValueError
  else let '(r, g') := next_raw g in Ok (low + r mod (high - low), g').

(** [rk_interval(max)]: an integer in [0, max]. *)
Definition random_interval (max : nat) (g : BitGenerator) : nat * BitGenerator :=
  let '(r, g') := next_raw g in (r mod (S max), g').

(** Exchange of [x[i]] and [x[j]]. *)
Definition swap (i j : nat) (x : list nat) : list nat :=
  match x !! i, x !! j with
  | Some a, Some b => <[j := a]> (<[i := b]> x)
  | _, _ => x
  end.

(** The exchange of [i] and [j], on indices. *)
Definition transpose_index (i j k : nat) : nat :=
  if decide (k = i) then j else if decide (k = j) then i else k.

(** [RandomState.shuffle]: for i in reversed(range(1, n)), exchange [x[i]]
    with [x[j]] for a random [j] in [0, i]. *)
Fixpoint shuffle_from (i : nat) (x : list nat) (g : BitGenerator) : list nat * BitGenerator :=
  match i with
  | 0 => (x, g)
  | S i' =>
      let '(j, g') := random_interval i g in
      shuffle_from i' (swap i j x) g'
  end.

(** [RandomState.permutation(n)] *)
Definition permutation (n : nat) (g : BitGenerator) : list nat * BitGenerator :=
  shuffle_from (n - 1) (seq 0 n) g.

(** [np.random.choice(a=a, size=size, replace=False)] for an integer [a]. *)
Definition choice (a : nat) (size : Z) (g : BitGenerator) : result (list nat * BitGenerator) :=
  if decide (size < 0)%Z then Raise ValueError
  else if decide (a = 0 ∧ size ≠ 0%Z) then Raise ValueError
  else if decide (Z.of_nat a < size)%Z then Raise ValueError
  else let '(p, g') := permutation a g in Ok (take (Z.to_nat size) p, g').

(** ** Circuit graphs (qiskit.dagcircuit.DAGCircuit)

    A graph is kept as its operation nodes in a topological order, the
    wires being the qubits the nodes act on, together with its global
    phase.  A node is an object with an identity ([node_id]); its
    operation is represented by its name. *)

Record DAGOpNode : Type := mkDAGOpNode {
  node_id : nat;
  op : string;
  qargs : list nat
}.

Global Instance DAGOpNode_eq_dec : EqDecision DAGOpNode.
Proof. solve_decision. Defined.

Record DAGCircuit : Type := mkDAGCircuit {
  num_qubits : nat;
  op_nodes : list DAGOpNode;
  next_node_id : nat;
  global_phase : R
}.

(** The angle reduced to [0, 2*pi), as the setter of [global_phase] stores it. *)
Definition mod_2pi (angle : R) : R :=
  (angle - IZR (Int_part (angle / (2 * PI))) * (2 * PI))%R.

(** [DAGCircuit()] followed by [add_qreg(QuantumRegister(n))] *)
Definition empty_dag (n : nat) : DAGCircuit := mkDAGCircuit n [] 0 0%R.

Definition set_global_phase (dag : DAGCircuit) (angle : R) : DAGCircuit :=
  mkDAGCircuit (num_qubits dag) (op_nodes dag) (next_node_id dag) (mod_2pi angle).

Definition apply_operation_back (dag : DAGCircuit) (o : string) (qs : list nat) : DAGCircuit :=
  mkDAGCircuit (num_qubits dag)
    (op_nodes dag ++ [mkDAGOpNode (next_node_id dag) o qs])
    (S (next_node_id dag))
    (global_phase dag).

(** [count_ops()]: the number of nodes of each operation name present. *)
Definition count_ops (dag : DAGCircuit) : gmap string nat :=
  foldl (fun m n => <[op n := S (default 0 (m !! op n))]> m) ∅ (op_nodes dag).

(** *** Runs

    [collect_runs(namelist)] scans the nodes in topological order; a node
    with a name of the list that is in no run yet starts a run, which is
    extended as long as the last node has exactly one successor, with a
    name of the list and in no run yet.  The successors of a node are the
    next nodes on its wires, so a node [m] is the only successor of [cur]
    exactly when [m] is the first later node on a wire of [cur] and is on
    all of them. *)

Definition name_in (namelist : list string) (n : DAGOpNode) : bool :=
  bool_decide (op n ∈ namelist).

Definition seen_in (seen : list nat) (n : DAGOpNode) : bool :=
  bool_decide (node_id n ∈ seen).

Definition touches (cur m : DAGOpNode) : bool :=
  existsb (fun w => bool_decide (w ∈ qargs m)) (qargs cur).

Definition covers (cur m : DAGOpNode) : bool :=
  forallb (fun w => bool_decide (w ∈ qargs m)) (qargs cur).

Fixpoint follow_run (namelist : list string) (seen : list nat) (cur : DAGOpNode)
    (rest : list DAGOpNode) : list DAGOpNode :=
  match rest with
  | [] => []
  | m :: rest' =>
      if touches cur m then
        if covers cur m && name_in namelist m && negb (seen_in seen m)
        then m :: follow_run namelist (node_id m :: seen) m rest'
        else []
      else follow_run namelist seen cur rest'
  end.

Fixpoint collect_runs_from (namelist : list string) (seen : list nat)
    (nodes : list DAGOpNode) : list (list DAGOpNode) :=
  match nodes with
  | [] => []
  | n :: rest =>
      if name_in namelist n && negb (seen_in seen n) then
        let group := n :: follow_run namelist (node_id n :: seen) n rest in
        group :: collect_runs_from namelist (map node_id group ++ seen) rest
      else collect_runs_from namelist seen rest
  end.

Definition collect_runs (dag : DAGCircuit) (namelist : list string) : list (list DAGOpNode) :=
  collect_runs_from namelist [] (op_nodes dag).

(** *** Iteration over the set of runs

    [DAGCircuit.collect_runs] returns the runs as a set of tuples of
    nodes.  A [for] loop over a set meets its elements in the order of
    its hash table; that order follows the hashes of the elements, here
    the identities of the node objects, and neither the graph nor the
    seed of a generator determines it.  [table_order] stands for it: for
    the successive numbers [k] of [table_order] (0 when it is exhausted)
    the loop takes the element of index [k mod n] among the [n] elements
    not met yet. *)

Fixpoint iterate_set {A} (n : nat) (table_order : list nat) (elements : list A) : list A :=
  match n with
  | 0 => []
  | S n' =>
      let k := hd 0 table_order mod length elements in
      match elements !! k with
      | Some x => x :: iterate_set n' (tl table_order) (delete k elements)
      | None => []
      end
  end.

Definition set_iteration {A} (table_order : list nat) (elements : list A) : list A :=
  iterate_set (length elements) table_order elements.

(** *** Substitution of a node by a graph

    The wires of [input_dag] are matched, in order, with the qubits of
    the node; the nodes of [input_dag] take the place of the node, as new
    nodes, and the global phase of [input_dag] is added. *)

Definition map_wire (node : DAGOpNode) (w : nat) : nat :=
  default w (qargs node !! w).

Definition copy_node (node : DAGOpNode) (first_id : nat) (k : nat) (n : DAGOpNode) : DAGOpNode :=
  mkDAGOpNode (first_id + k) (op n) (map (map_wire node) (qargs n)).

Definition copy_nodes (node : DAGOpNode) (first_id : nat) (input : list DAGOpNode) : list DAGOpNode :=
  imap (copy_node node first_id) input.

Fixpoint splice (id : nat) (new : list DAGOpNode) (nodes : list DAGOpNode) : option (list DAGOpNode) :=
  match nodes with
  | [] => None
  | n :: rest =>
      if decide (node_id n = id) then Some (new ++ rest)
      else cons n <$> splice id new rest
  end.

Definition substitute_node_with_dag (dag : DAGCircuit) (node : DAGOpNode)
    (input_dag : DAGCircuit) : result DAGCircuit :=
  if decide (length (qargs node) = num_qubits input_dag) then
    let new := copy_nodes node (next_node_id dag) (op_nodes input_dag) in
    match splice (node_id node) new (op_nodes dag) with
    | Some nodes =>
        Ok (mkDAGCircuit (num_qubits dag) nodes
              (next_node_id dag + length new)
              (mod_2pi (global_phase dag + global_phase input_dag)))
    | None => Raise DAGCircuitError
    end
  else Raise DAGCircuitError.

(** ** Loops over the nodes of the runs *)

Fixpoint for_each {A S} (body : S → A → result S) (s : S) (l : list A) : result S :=
  match l with
  | [] => Ok s
  | a :: l' => s' ← body s a; for_each body s' l'
  end.

(** ** Zero-noise extrapolation: [Local2qFolding] *)

Record Local2qFolding : Type := mkLocal2qFolding {
  scale_factor : Q;
  folding_gate : string
}.

(** The scale factor is a number given in decimal, [scale_factor], the
    one that [str(scale_factor)] prints; as a float it is
    [Binary64.round scale_factor]. *)

(** [int(np.ceil(value) // 2 * 2 + 1)].  [np.ceil] takes [value] as a
    float and returns a float; the floor division by 2 and the product
    by 2 of a float that is an integer are exact, and the sum with 1 is
    rounded. *)
Definition _next_odd_if_not_odd (value : Q) : Z :=
  let ceiling := Qceiling (Binary64.round value) in
  Qfloor (Binary64.round (inject_Z (ceiling / 2 * 2) + 1)).

(** The number of gates to fold,
    [int(np.floor(num_2q_gates * float(Decimal(str(scale_factor)) - Decimal(1))
                  / float(Decimal(str(odd_fold_factor)) - 1)))]:
    the two differences are exact and each is converted to the nearest
    float, the integer [num_2q_gates] is converted to a float for the
    product, and the product and the quotient are rounded.  The
    division of a float by zero raises. *)
Definition num_2q_gates_to_be_folded (num_2q_gates : nat) (scale_factor : Q)
    (odd_fold_factor : Z) : result Z :=
  let numerator := Binary64.round (scale_factor - 1) in
  let denominator := Binary64.round (inject_Z odd_fold_factor - 1) in
  let product :=
    Binary64.mul (Binary64.round (inject_Z (Z.of_nat num_2q_gates))) numerator in
  if Qeq_bool denominator 0 then Raise ZeroDivisionError
  else Ok (Qfloor (Binary64.div product denominator)).

Definition _get_2q_gate_indices_to_be_folded (num_2q_gates : nat) (scale_factor : Q)
    (odd_fold_factor : Z) (np_random : BitGenerator) : result (list nat * BitGenerator) :=
  n ← num_2q_gates_to_be_folded num_2q_gates scale_factor odd_fold_factor;
  choice num_2q_gates n np_random.

(** The graph built for one node: [fold_factor] copies of its operation. *)
Definition fold_dag (fold_factor : Z) (node : DAGOpNode) : DAGCircuit :=
  Nat.iter (Z.to_nat fold_factor)
           (fun d => apply_operation_back d (op node) [0; 1])
           (empty_dag 2).

Definition folding_body (odd_fold_factor : Z) (folding_gate_indices : list nat)
    (st : DAGCircuit * nat) (node : DAGOpNode) : result (DAGCircuit * nat) :=
  let '(dag, idx) := st in
  let fold_factor := if bool_decide (idx ∈ folding_gate_indices) then odd_fold_factor else 1%Z in
  dag ← substitute_node_with_dag dag node (fold_dag fold_factor node);
  mret (dag, S idx).

Definition Local2qFolding_run (self : Local2qFolding) (dag : DAGCircuit)
    (np_random : BitGenerator) (table_order : list nat) : result (DAGCircuit * BitGenerator) :=
  if Qeq_bool (scale_factor self) 1 then Ok (dag, np_random)
  else
    match count_ops dag !! folding_gate self with
    | None => Raise KeyError
    | Some num_2q_gates =>
        let odd_fold_factor := _next_odd_if_not_odd (scale_factor self) in
        '(folding_gate_indices, np_random) ←
          _get_2q_gate_indices_to_be_folded num_2q_gates (scale_factor self)
                                            odd_fold_factor np_random;
        '(dag, _) ←
          for_each (fun st run => for_each (folding_body odd_fold_factor folding_gate_indices) st run)
                   (dag, 0) (set_iteration table_order (collect_runs dag [folding_gate self]));
        mret (dag, np_random)
    end.

(** ** Pauli twirling: [PauliTwirling] *)

Definition pauli_name (p : PauliGate) : string :=
  match p with
  | IGate => "id"
  | ZGate => "z"
  | XGate => "x"
  | YGate => "y"
  end.

Record PauliTwirling : Type := mkPauliTwirling {
  twirling_gate : string;
  twirling_set : list TwirlSet;
  twirling_len : nat;
  rng : BitGenerator
}.

Section Seeding.

(** The raw output stream of the bit generator, by seed. *)
Variable seeded_stream : nat → nat → nat.

(** [np.random.default_rng(seed)]; without a seed the generator is
    seeded from the entropy of the operating system. *)
Definition default_rng (seed : option nat) (os_entropy : nat) : BitGenerator :=
  mkBitGenerator (seeded_stream (default os_entropy seed)) 0.

Definition PauliTwirling_init (twirling_gate : string) (seed : option nat)
    (os_entropy : nat) : result PauliTwirling :=
  sets ← generate_pauli_twirling_sets twirling_gate;
  mret (mkPauliTwirling twirling_gate sets (length sets) (default_rng seed os_entropy)).

End Seeding.

(** The graph built for one node and one entry of the twirling set. *)
Definition twirl_dag (entry : TwirlSet) (node : DAGOpNode) : DAGCircuit :=
  let '(g0, g1, g2, g3, twirl_phase) := entry in
  let d := empty_dag 2 in
  let d := apply_operation_back d (pauli_name g0) [0] in
  let d := apply_operation_back d (pauli_name g1) [1] in
  let d := apply_operation_back d (op node) [0; 1] in
  let d := apply_operation_back d (pauli_name g2) [0] in
  let d := apply_operation_back d (pauli_name g3) [1] in
  set_global_phase d (global_phase d + phase_angle twirl_phase).

(** A substitution made by the pass: the node replaced, the index drawn
    and the graph put in its place. *)
Definition Substitution : Type := DAGOpNode * nat * DAGCircuit.

(** The state of the loop of [run]: the graph, the generator of the pass
    and the substitutions made so far (the last field is not in the
    code; it records what the loop does). *)
Definition twirling_body (set : list TwirlSet) (len : nat)
    (st : DAGCircuit * BitGenerator * list Substitution) (node : DAGOpNode)
    : result (DAGCircuit * BitGenerator * list Substitution) :=
  let '(dag, rng, log) := st in
  '(twirl_idx, rng) ← integers 0 len rng;
  match set !! twirl_idx with
  | None => Raise IndexError
  | Some entry =>
      let d := twirl_dag entry node in
      dag ← substitute_node_with_dag dag node d;
      mret (dag, rng, log ++ [(node, twirl_idx, d)])
  end.

Definition PauliTwirling_run_log (self : PauliTwirling) (dag : DAGCircuit)
    (table_order : list nat) : result (DAGCircuit * PauliTwirling * list Substitution) :=
  '(dag, rng, log) ←
    for_each (fun st run => for_each (twirling_body (twirling_set self) (twirling_len self)) st run)
             (dag, rng self, [])
             (set_iteration table_order (collect_runs dag [twirling_gate self]));
  mret (dag, mkPauliTwirling (twirling_gate self) (twirling_set self) (twirling_len self) rng, log).

Definition PauliTwirling_run (self : PauliTwirling) (dag : DAGCircuit)
    (table_order : list nat) : result (DAGCircuit * PauliTwirling) :=
  '(dag, self, _) ← PauliTwirling_run_log self dag table_order;
  mret (dag, self).

(** ** Aggregation of outcome counts

    A dictionary of counts is a finite map from outcomes to numbers.  The
    loop over the keys of [dist] is a fold over the map.  [dist[key]/total]
    is a true division: it gives the float nearest to the quotient,
    whether the value is an integer or a float; and the sum with the
    value kept so far (the integer 0 at first) is a sum of floats.  When
    [data] is empty no division is made. *)

Definition aggregate_key (total : Qc) (key : string) (value : Qc)
    (aggregated : gmap string Qc) : gmap string Qc :=
  <[key := Q2Qc (Binary64.add (default 0%Qc (aggregated !! key))
                              (Binary64.div value total))]> aggregated.

Definition aggregate_data (data : list (gmap string Qc)) (normalize : bool) : gmap string Qc :=
  let total : Qc := if normalize then Q2Qc (inject_Z (Z.of_nat (length data))) else 1%Qc in
  foldl (fun aggregated dist => map_fold (aggregate_key total) aggregated dist) ∅ data.

(** What the loops do for one key: from the value [start] kept for it,
    if any, each mapping that has the key adds its value divided by
    [total], in the order of [data]. *)
Definition key_fold (total : Qc) (key : string) (start : option Qc)
    (data : list (gmap string Qc)) : option Qc :=
  foldl (fun kept dist =>
           match (dist !! key : option Qc) with
           | Some value =>
               Some (Q2Qc (Binary64.add (default 0%Qc kept) (Binary64.div value total)))
           | None => kept
           end) start data.

(** The sum the specification describes, in exact arithmetic: the values
    at [key], a missing key counting for zero, each divided by [total]. *)
Definition key_total (total : Qc) (key : string) (data : list (gmap string Qc)) : Qc :=
  foldr (fun dist acc => (default 0 (dist !! key) / total + acc)%Qc) 0%Qc data.

Definition key_present (key : string) (data : list (gmap string Qc)) : bool :=
  existsb (fun dist => bool_decide (is_Some (dist !! key))) data.

(** A mapping of counts, with natural numbers as values, as a Python
    dictionary with integer values. *)
Definition of_counts (tally : gmap string nat) : gmap string Qc :=
  (fun n => Q2Qc (inject_Z (Z.of_nat n))) <$> tally.

(** The sum of the counts at [key]. *)
Definition key_count (key : string) (tallies : list (gmap string nat)) : nat :=
  foldr (fun tally acc => default 0 (tally !! key) + acc) 0 tallies.

(** ** Vocabulary of the statements *)

(** The occurrences of a gate in a graph: its nodes of that name. *)
Definition occurrences (gate : string) (dag : DAGCircuit) : list DAGOpNode :=
  filter (fun n => op n = gate) (op_nodes dag).

(** The occurrences in the order the passes meet them, run after run. *)
Definition encounter_order (gate : string) (dag : DAGCircuit) (table_order : list nat)
    : list DAGOpNode :=
  concat (set_iteration table_order (collect_runs dag [gate])).

(** A node without its identity: the operation and the qubits. *)
Definition gate_of (n : DAGOpNode) : string * list nat := (op n, qargs n).

(** Node identities are unique and below the next fresh identity. *)
Definition wf_dag (dag : DAGCircuit) : Prop :=
  NoDup (map node_id (op_nodes dag)) ∧
  Forall (fun n => node_id n < next_node_id dag) (op_nodes dag).

(** Every occurrence of the gate acts on two qubits (control, target). *)
Definition two_qubit_occurrences (gate : string) (dag : DAGCircuit) : Prop :=
  Forall (fun n => op n = gate → length (qargs n) = 2) (op_nodes dag).

Global Instance wf_dag_dec dag : Decision (wf_dag dag).
Proof. unfold wf_dag. apply _. Defined.
Global Instance two_qubit_occurrences_dec gate dag : Decision (two_qubit_occurrences gate dag).
Proof. unfold two_qubit_occurrences. apply _. Defined.

(** A generator and a graph to evaluate the passes on:
    cx(0,1); h(2); cx(0,1); cx(1,2); cx(2,3). *)
Definition example_generator : BitGenerator :=
  mkBitGenerator (fun k => 7 * k + 3) 0.

Definition example_dag : DAGCircuit :=
  mkDAGCircuit 4
    [ mkDAGOpNode 0 "cx" [0; 1];
      mkDAGOpNode 1 "h" [2];
      mkDAGOpNode 2 "cx" [0; 1];
      mkDAGOpNode 3 "cx" [1; 2];
      mkDAGOpNode 4 "cx" [2; 3] ]
    5 0%R.

(** The graph a list of substitutions puts in place of a node, if any. *)
Fixpoint substituted (plan : list (DAGOpNode * DAGCircuit)) (n : DAGOpNode) : option DAGCircuit :=
  match plan with
  | [] => None
  | (v, d) :: plan' =>
      if decide (node_id v = node_id n) then Some d else substituted plan' n
  end.

(** The nodes that take the place of [node] when it is substituted by
    [input_dag], without their identities. *)
Definition expansion (node : DAGOpNode) (input_dag : DAGCircuit) : list (string * list nat) :=
  (fun n => (op n, map (map_wire node) (qargs n))) <$> op_nodes input_dag.

(** What becomes of a node under a list of substitutions. *)
Definition rewritten (plan : list (DAGOpNode * DAGCircuit)) (n : DAGOpNode)
    : list (string * list nat) :=
  match substituted plan n with
  | Some d => expansion n d
  | None => [gate_of n]
  end.

(** The substitutions of a list, made one after the other. *)
Definition substitute_all (plan : list (DAGOpNode * DAGCircuit)) (dag : DAGCircuit)
    : result DAGCircuit :=
  for_each (fun dag vd => substitute_node_with_dag dag vd.1 vd.2) dag plan.

(** The rank of a node in the order of encounter, if it is met. *)
Fixpoint encounter_index (visits : list DAGOpNode) (n : DAGOpNode) : option nat :=
  match visits with
  | [] => None
  | v :: visits' =>
      if decide (node_id v = node_id n) then Some 0
      else S <$> encounter_index visits' n
  end.

(** The [k]-th next index a generator gives for draws in [0, len), and
    the generator after [k] draws. *)
Definition draw (g : BitGenerator) (len k : nat) : nat :=
  stream g (position g + k) mod len.

Definition advance (g : BitGenerator) (k : nat) : BitGenerator :=
  mkBitGenerator (stream g) (position g + k).

Global Instance TwirlSet_inhabited : Inhabited TwirlSet :=
  populate (IGate, IGate, IGate, IGate, Phase0).

(** The substitutions of the twirling pass for the nodes [visits]: the
    [k]-th node met is replaced according to the [k]-th index drawn. *)
Definition twirl_log (set : list TwirlSet) (len : nat) (g : BitGenerator)
    (visits : list DAGOpNode) : list Substitution :=
  imap (fun k v => (v, draw g len k, twirl_dag (set !!! draw g len k) v)) visits.

(** The five-node sequence of an entry on the qubits of a node. *)
Definition five_gate_sequence (entry : TwirlSet) (n : DAGOpNode) : list (string * list nat) :=
  let '(g0, g1, g2, g3, _) := entry in
  match qargs n with
  | [control; target] =>
      [ (pauli_name g0, [control]);
        (pauli_name g1, [target]);
        (op n, [control; target]);
        (pauli_name g2, [control]);
        (pauli_name g3, [target]) ]
  | _ => []
  end.

(** What the twirling pass makes of a node of the input graph. *)
Definition twirled (set : list TwirlSet) (len : nat) (g : BitGenerator)
    (visits : list DAGOpNode) (n : DAGOpNode) : list (string * list nat) :=
  match encounter_index visits n with
  | Some k => five_gate_sequence (set !!! draw g len k) n
  | None => [gate_of n]
  end.

(** The phases of the entries drawn for the first [count] nodes met. *)
Definition drawn_phases (set : list TwirlSet) (len : nat) (g : BitGenerator)
    (count : nat) : list R :=
  (fun k => phase_angle (set !!! draw g len k).2) <$> seq 0 count.

Definition sum_angles (angles : list R) : R := foldr Rplus 0%R angles.

(** The global phase after the phases [angles] are added one by one. *)
Definition accumulate_phase (phase : R) (angles : list R) : R :=
  foldl (fun gp a => mod_2pi (gp + mod_2pi (0 + a))) phase angles.

(** What the folding pass makes of a node of the input graph. *)
Definition folded (odd_fold_factor : Z) (folding_gate_indices : list nat)
    (visits : list DAGOpNode) (n : DAGOpNode) : list (string * list nat) :=
  match encounter_index visits n with
  | Some idx =>
      replicate
        (Z.to_nat (if bool_decide (idx ∈ folding_gate_indices) then odd_fold_factor else 1%Z))
        (gate_of n)
  | None => [gate_of n]
  end.

(** A transform as [__init__] leaves it, whatever the state of its generator. *)
Definition constructed (self : PauliTwirling) : Prop :=
  generate_pauli_twirling_sets (twirling_gate self) = Ok (twirling_set self) ∧
  twirling_len self = length (twirling_set self).

(** The three sets, as the search computes them. *)

Definition cx_twirling_sets : list TwirlSet :=
  [ (IGate, IGate, IGate, IGate, Phase0);
    (IGate, ZGate, ZGate, ZGate, Phase0);
    (IGate, XGate, IGate, XGate, Phase0);
    (IGate, YGate, ZGate, YGate, Phase0);
    (ZGate, IGate, ZGate, IGate, Phase0);
    (ZGate, ZGate, IGate, ZGate, Phase0);
    (ZGate, XGate, ZGate, XGate, Phase0);
    (ZGate, YGate, IGate, YGate, Phase0);
    (XGate, IGate, XGate, XGate, Phase0);
    (XGate, ZGate, YGate, YGate, PhasePi);
    (XGate, XGate, XGate, IGate, Phase0);
    (XGate, YGate, YGate, ZGate, Phase0);
    (YGate, IGate, YGate, XGate, Phase0);
    (YGate, ZGate, XGate, YGate, Phase0);
    (YGate, XGate, YGate, IGate, Phase0);
    (YGate, YGate, XGate, ZGate, PhasePi)].

Definition cz_twirling_sets : list TwirlSet :=
  [ (IGate, IGate, IGate, IGate, Phase0);
    (IGate, ZGate, IGate, ZGate, Phase0);
    (IGate, XGate, ZGate, XGate, Phase0);
    (IGate, YGate, ZGate, YGate, Phase0);
    (ZGate, IGate, ZGate, IGate, Phase0);
    (ZGate, ZGate, ZGate, ZGate, Phase0);
    (ZGate, XGate, IGate, XGate, Phase0);
    (ZGate, YGate, IGate, YGate, Phase0);
    (XGate, IGate, XGate, ZGate, Phase0);
    (XGate, ZGate, XGate, IGate, Phase0);
    (XGate, XGate, YGate, YGate, Phase0);
    (XGate, YGate, YGate, XGate, PhasePi);
    (YGate, IGate, YGate, ZGate, Phase0);
    (YGate, ZGate, YGate, IGate, Phase0);
    (YGate, XGate, XGate, YGate, PhasePi);
    (YGate, YGate, XGate, XGate, Phase0)].

Definition ecr_twirling_sets : list TwirlSet :=
  [ (IGate, IGate, IGate, IGate, Phase0);
    (IGate, ZGate, ZGate, YGate, Phase0);
    (IGate, XGate, IGate, XGate, Phase0);
    (IGate, YGate, ZGate, ZGate, PhasePi);
    (ZGate, IGate, ZGate, IGate, PhasePi);
    (ZGate, ZGate, IGate, YGate, PhasePi);
    (ZGate, XGate, ZGate, XGate, PhasePi);
    (ZGate, YGate, IGate, ZGate, Phase0);
    (XGate, IGate, YGate, XGate, PhasePi);
    (XGate, ZGate, XGate, ZGate, Phase0);
    (XGate, XGate, YGate, IGate, PhasePi);
    (XGate, YGate, XGate, YGate, Phase0);
    (YGate, IGate, XGate, XGate, PhasePi);
    (YGate, ZGate, YGate, ZGate, PhasePi);
    (YGate, XGate, XGate, IGate, PhasePi);
    (YGate, YGate, YGate, YGate, PhasePi)].

(** A transform constructed and run once: what [PauliTwirling(gate,
    seed).run(dag)] computes, with the substitutions it makes. *)
Definition twirl_once (seeded_stream : nat → nat → nat) (twirling_gate : string)
    (seed : option nat) (os_entropy : nat) (dag : DAGCircuit) (table_order : list nat)
    : result (DAGCircuit * PauliTwirling * list Substitution) :=
  self ← PauliTwirling_init seeded_stream twirling_gate seed os_entropy;
  PauliTwirling_run_log self dag table_order.

(** The substitutions of a run, as (node, index drawn) pairs, and the
    global phase it ends with. *)
Definition substitutions_of (r : result (DAGCircuit * PauliTwirling * list Substitution))
    : option (list (DAGOpNode * nat)) :=
  match r with
  | Ok (_, _, log) => Some ((fun s : Substitution => s.1) <$> log)
  | Raise _ => None
  end.

(** The indices a run draws, in the order it draws them. *)
Definition drawn_indices_of (r : result (DAGCircuit * PauliTwirling * list Substitution))
    : option (list nat) :=
  match r with
  | Ok (_, _, log) => Some ((fun s : Substitution => s.1.2) <$> log)
  | Raise _ => None
  end.

Definition final_phase_of (r : result (DAGCircuit * PauliTwirling * list Substitution))
    : option R :=
  match r with
  | Ok (dag, _, _) => Some (global_phase dag)
  | Raise _ => None
  end.

Definition example_twirling : PauliTwirling :=
  mkPauliTwirling "cx" cx_twirling_sets 16 example_generator.

Definition qc (n : Z) (d : positive) : Qc := Q2Qc (n # d).

Definition example_data : list (gmap string Qc) :=
  [ {[ "00" := qc 3 1; "01" := qc 1 1 ]}; {[ "00" := qc 1 1 ]} ].

(** Six mappings with one outcome counted once. *)
Definition example_sixths : list (gmap string Qc) :=
  replicate 6 {[ "a" := Q2Qc 1 ]}.

(** The counts of the example, [{"00":3,"01":1}, {"00":1}]. *)
Definition example_tallies : list (gmap string nat) :=
  [ {[ "00" := 3; "01" := 1 ]}; {[ "00" := 1 ]} ].

(** ** The number of gates to fold, twice more

    [num_to_fold_spec] is the number as the specification gives it,
    floor(N * (scale_factor - 1) / (odd_fold_factor - 1)), in exact
    arithmetic.

    [num_2q_gates_to_be_folded_binary64] is the expression of the code
    evaluated with the primitive floats of the kernel: the code
    subtracts in decimal arithmetic and then converts to binary64, and
    the product and the quotient are IEEE 754 double-precision
    operations.  [float_of_Q] is the conversion of a decimal to the
    nearest double: the quotient of two integers below 2^53 is correctly
    rounded. *)

Definition num_to_fold_spec (num_2q_gates : nat) (scale_factor : Q)
    (odd_fold_factor : Z) : Z :=
  Qfloor (inject_Z (Z.of_nat num_2q_gates) * (scale_factor - 1)
          / (inject_Z odd_fold_factor - 1)).

Definition float_of_Z (z : Z) : PrimFloat.float :=
  if (z <? 0)%Z then PrimFloat.opp (PrimFloat.of_uint63 (Uint63.of_Z (- z)))
  else PrimFloat.of_uint63 (Uint63.of_Z z).

Definition float_of_Q (q : Q) : PrimFloat.float :=
  PrimFloat.div (float_of_Z (Qnum q)) (float_of_Z (Zpos (Qden q))).

(** [int(np.floor(f))]; not defined on infinities and NaN. *)
Definition floor_float (f : PrimFloat.float) : option Z :=
  match FloatOps.Prim2SF f with
  | SpecFloat.S754_zero _ => Some 0%Z
  | SpecFloat.S754_finite negative m e =>
      let magnitude_floor :=
        if (0 <=? e)%Z then (Zpos m * 2 ^ e)%Z else (Zpos m / 2 ^ (- e))%Z in
      let magnitude_ceil :=
        if (0 <=? e)%Z then (Zpos m * 2 ^ e)%Z else (- ((- Zpos m) / 2 ^ (- e)))%Z in
      Some (if negative then (- magnitude_ceil)%Z else magnitude_floor)
  | _ => None
  end.

(** [np.floor(num_2q_gates * float(Decimal(str(scale_factor)) - Decimal(1))
              / float(Decimal(str(odd_fold_factor)) - 1))],
    for a scale factor whose decimal representation is [scale_factor]. *)
Definition num_2q_gates_to_be_folded_binary64 (num_2q_gates : nat) (scale_factor : Q)
    (odd_fold_factor : Z) : option Z :=
  floor_float
    (PrimFloat.div
       (PrimFloat.mul (float_of_Z (Z.of_nat num_2q_gates)) (float_of_Q (scale_factor - 1)))
       (float_of_Q (inject_Z odd_fold_factor - 1))).

(** * Properties of the twirling set search *)

Lemma generate_cx : generate_pauli_twirling_sets "cx" = Ok cx_twirling_sets.
Proof. vm_compute. reflexivity. Qed.

Lemma generate_cz : generate_pauli_twirling_sets "cz" = Ok cz_twirling_sets.
Proof. vm_compute. reflexivity. Qed.

Lemma generate_ecr : generate_pauli_twirling_sets "ecr" = Ok ecr_twirling_sets.
Proof. vm_compute. reflexivity. Qed.

Lemma phase_angle_cases (p : Phase) : phase_angle p = 0%R ∨ phase_angle p = PI.
Proof. destruct p; [left | right]; reflexivity. Qed.

Lemma Q2R_of_Z (z : Z) : Q2R (z # 1) = IZR z.
Proof. unfold Q2R. cbn [Qnum Qden]. rewrite Rinv_1. apply Rmult_1_r. Qed.

(** [phase_factor p] is e^(i * phase_angle p). *)
Lemma phase_factor_exp (p : Phase) :
  Qr2_to_R (Cx.re (phase_factor p)) = cos (phase_angle p) ∧
  Qr2_to_R (Cx.im (phase_factor p)) = sin (phase_angle p).
Proof.
  destruct p; cbn [phase_angle phase_factor].
  - rewrite cos_0, sin_0.
    change (Qr2_to_R (Cx.re c1)) with (Q2R (1 # 1) + Q2R (0 # 1) * sqrt 2)%R.
    change (Qr2_to_R (Cx.im c1)) with (Q2R (0 # 1) + Q2R (0 # 1) * sqrt 2)%R.
    rewrite !Q2R_of_Z. split; ring.
  - rewrite cos_PI, sin_PI.
    change (Qr2_to_R (Cx.re cm1)) with (Q2R (-1 # 1) + Q2R (0 # 1) * sqrt 2)%R.
    change (Qr2_to_R (Cx.im cm1)) with (Q2R (0 # 1) + Q2R (0 # 1) * sqrt 2)%R.
    rewrite !Q2R_of_Z. split; ring.
Qed.

Lemma forallb_elem_of {A} (f : A → bool) (l : list A) (x : A) :
  forallb f l = true → x ∈ l → f x = true.
Proof.
  intros H Hx. rewrite forallb_forall in H. apply H. by apply list_elem_of_In.
Qed.

Lemma Qr2_zero_to_R (x : Qr2.t) : Qr2.eqb x Qr2.zero = true → Qr2_to_R x = 0%R.
Proof.
  unfold Qr2.eqb. intros H. apply andb_true_iff in H as [Hr Hi].
  apply Qeq_bool_iff, Qreals.Qeq_eqR in Hr. apply Qeq_bool_iff, Qreals.Qeq_eqR in Hi.
  unfold Qr2_to_R. rewrite Hr, Hi. cbn [Qr2.rat Qr2.irr Qr2.zero].
  rewrite (Q2R_of_Z 0). ring.
Qed.

Lemma tol_spec_positive : (0 < Q2R tol_spec)%R.
Proof.
  rewrite <- (Q2R_of_Z 0). apply Qreals.Qlt_Rlt. reflexivity.
Qed.

(** C1. For each of cx, cz and ecr the search returns a set, and every
    entry (quadruple, phase) of it has phase 0 or pi and reproduces the
    gate: the matrix of the five-gate sequence (quadruple[0] on the
    control, quadruple[1] on the target, the gate, quadruple[2] on the
    control, quadruple[3] on the target) times e^(i*phase) equals the
    matrix of the gate, so its Frobenius distance to it is below the
    tolerance 1e-12. *)
Theorem twirling_entries_reproduce_gate (name : string) :
  name ∈ ["cx"; "cz"; "ecr"] →
  ∃ g sets,
    two_qubit_gates !! name = Some g ∧
    generate_pauli_twirling_sets name = Ok sets ∧
    ∀ gates phase, (gates, phase) ∈ sets →
      (phase_angle phase = 0%R ∨ phase_angle phase = PI) ∧
      Qr2_to_R (Cx.re (phase_factor phase)) = cos (phase_angle phase) ∧
      Qr2_to_R (Cx.im (phase_factor phase)) = sin (phase_angle phase) ∧
      Mat.eqb (Mat.scale (phase_factor phase) (sequence_matrix g gates))
              (two_qubit_matrix g) = true ∧
      (sqrt (Qr2_to_R (distance2 (Mat.scale (phase_factor phase) (sequence_matrix g gates))
                                 (two_qubit_matrix g))) < Q2R tol_spec)%R ∧
      within_tolerance (Mat.scale (phase_factor phase) (sequence_matrix g gates))
                       (two_qubit_matrix g) tol_spec = true.
Proof.
  intros Hname.
  assert (Hcases : name = "cx" ∨ name = "cz" ∨ name = "ecr").
  { repeat (apply elem_of_cons in Hname as [-> | Hname]; [tauto |]).
    by apply elem_of_nil in Hname. }
  assert (Hall : ∀ g sets, forallb (entry_reproduces g) sets = true →
    ∀ gates phase, (gates, phase) ∈ sets →
      (phase_angle phase = 0%R ∨ phase_angle phase = PI) ∧
      Qr2_to_R (Cx.re (phase_factor phase)) = cos (phase_angle phase) ∧
      Qr2_to_R (Cx.im (phase_factor phase)) = sin (phase_angle phase) ∧
      Mat.eqb (Mat.scale (phase_factor phase) (sequence_matrix g gates))
              (two_qubit_matrix g) = true ∧
      (sqrt (Qr2_to_R (distance2 (Mat.scale (phase_factor phase) (sequence_matrix g gates))
                                 (two_qubit_matrix g))) < Q2R tol_spec)%R ∧
      within_tolerance (Mat.scale (phase_factor phase) (sequence_matrix g gates))
                       (two_qubit_matrix g) tol_spec = true).
  { intros g sets Hf gates phase Hin.
    pose proof (forallb_elem_of _ _ _ Hf Hin) as Hr.
    unfold entry_reproduces in Hr. cbn [fst snd] in Hr.
    apply andb_true_iff in Hr as [Hr Htol]. apply andb_true_iff in Hr as [Heq Hzero].
    pose proof (phase_factor_exp phase) as [Hre Him].
    rewrite (Qr2_zero_to_R _ Hzero), sqrt_0.
    auto 10 using phase_angle_cases, tol_spec_positive. }
  destruct Hcases as [-> | [-> | ->]].
  - exists CXGate, cx_twirling_sets.
    split; [reflexivity |]. split; [apply generate_cx |].
    apply Hall. vm_compute. reflexivity.
  - exists CZGate, cz_twirling_sets.
    split; [reflexivity |]. split; [apply generate_cz |].
    apply Hall. vm_compute. reflexivity.
  - exists ECRGate, ecr_twirling_sets.
    split; [reflexivity |]. split; [apply generate_ecr |].
    apply Hall. vm_compute. reflexivity.
Qed.

Lemma twirling_entries_reproduce_gate_witness :
  "ecr" ∈ ["cx"; "cz"; "ecr"] ∧
  ∃ g sets,
    two_qubit_gates !! "ecr" = Some g ∧
    generate_pauli_twirling_sets "ecr" = Ok sets ∧
    ∀ gates phase, (gates, phase) ∈ sets →
      (phase_angle phase = 0%R ∨ phase_angle phase = PI) ∧
      Qr2_to_R (Cx.re (phase_factor phase)) = cos (phase_angle phase) ∧
      Qr2_to_R (Cx.im (phase_factor phase)) = sin (phase_angle phase) ∧
      Mat.eqb (Mat.scale (phase_factor phase) (sequence_matrix g gates))
              (two_qubit_matrix g) = true ∧
      (sqrt (Qr2_to_R (distance2 (Mat.scale (phase_factor phase) (sequence_matrix g gates))
                                 (two_qubit_matrix g))) < Q2R tol_spec)%R ∧
      within_tolerance (Mat.scale (phase_factor phase) (sequence_matrix g gates))
                       (two_qubit_matrix g) tol_spec = true.
Proof.
  assert (H : "ecr" ∈ ["cx"; "cz"; "ecr"]) by (repeat constructor).
  split; [exact H | exact (twirling_entries_reproduce_gate "ecr" H)].
Defined.

(** C2, as the claim states it, fails: the set for cx has 16 entries, but
    not every Pauli quadruple is accepted; (I, I, I, X) is one of the
    quadruples the search goes through and it is in the set with no
    phase. *)
Lemma quadruple_rejected :
  (IGate, IGate, IGate, XGate) ∈ product4 operator_list ∧
  ∃ sets,
    generate_pauli_twirling_sets "cx" = Ok sets ∧
    ∀ phase, (IGate, IGate, IGate, XGate, phase) ∉ sets.
Proof.
  split.
  - apply (bool_decide_unpack ((IGate, IGate, IGate, XGate) ∈ product4 operator_list)).
    vm_compute. reflexivity.
  - exists cx_twirling_sets. split; [apply generate_cx |].
    intros phase.
    apply (bool_decide_unpack ((IGate, IGate, IGate, XGate, phase) ∉ cx_twirling_sets)).
    destruct phase; vm_compute; reflexivity.
Qed.

(** C2, amended. The search goes through 256 quadruples; the set has
    exactly 16 entries for cx and for cz, one for each pair of
    pre-rotations, and it is not empty for ecr. *)
Theorem twirling_set_sizes :
  length (product4 operator_list) = 256 ∧
  (∃ sets, generate_pauli_twirling_sets "cx" = Ok sets ∧ length sets = 16 ∧
     ∀ p0 p1, ∃ p2 p3 phase, (p0, p1, p2, p3, phase) ∈ sets) ∧
  (∃ sets, generate_pauli_twirling_sets "cz" = Ok sets ∧ length sets = 16 ∧
     ∀ p0 p1, ∃ p2 p3 phase, (p0, p1, p2, p3, phase) ∈ sets) ∧
  (∃ sets, generate_pauli_twirling_sets "ecr" = Ok sets ∧ sets ≠ [] ∧ 0 < length sets).
Proof.
  split; [reflexivity |]. split; [| split].
  - exists cx_twirling_sets. split; [apply generate_cx |]. split; [reflexivity |].
    intros p0 p1; destruct p0, p1; do 3 eexists;
      repeat first [ apply list_elem_of_here | apply list_elem_of_further ].
  - exists cz_twirling_sets. split; [apply generate_cz |]. split; [reflexivity |].
    intros p0 p1; destruct p0, p1; do 3 eexists;
      repeat first [ apply list_elem_of_here | apply list_elem_of_further ].
  - exists ecr_twirling_sets. split; [apply generate_ecr |].
    split; [discriminate | cbn; lia].
Qed.

(** * Properties of binary64 rounding *)

Section Binary64Facts.

Local Open Scope Q_scope.

Lemma Qpower2_pos (e : Z) : 0 < 2 ^ e.
Proof. by apply Qpower_0_lt. Qed.

Lemma Qpower2_inject (n : Z) : (0 <= n)%Z -> 2 ^ n == inject_Z (2 ^ n).
Proof. intros Hn. symmetry. apply (Zpower_Qpower 2 n Hn). Qed.

Lemma Qpower2_le (a b : Z) : (a <= b)%Z -> 2 ^ a <= 2 ^ b.
Proof. intros H. apply Qpower_le_compat_l; [exact H | discriminate]. Qed.

Lemma Qpower2_plus (a b : Z) : 2 ^ (a + b) == 2 ^ a * 2 ^ b.
Proof. apply Qpower_plus. discriminate. Qed.

Lemma Qmake_as_div (q : Q) : q == inject_Z (Qnum q) / inject_Z (Zpos (Qden q)).
Proof. destruct q as [n d]. cbn [Qnum Qden]. rewrite Qmake_Qdiv. reflexivity. Qed.

(** [2 ^ Binary64.floor_log2 q <= q < 2 ^ (Binary64.floor_log2 q + 1)] *)
Lemma floor_log2_spec (q : Q) :
  0 < q -> 2 ^ Binary64.floor_log2 q <= q /\ q < 2 ^ (Binary64.floor_log2 q + 1).
Proof.
  intros Hq. unfold Binary64.floor_log2.
  set (n := Qnum q). set (d := Zpos (Qden q)).
  assert (Hn : (0 < n)%Z).
  { unfold n. destruct q as [qn qd]. unfold Qlt in Hq. cbn in *. lia. }
  assert (Hd : (0 < d)%Z) by (unfold d; lia).
  destruct (Z.log2_spec n Hn) as [Hn1 Hn2].
  destruct (Z.log2_spec d Hd) as [Hd1 Hd2].
  pose proof (Z.log2_nonneg n) as Hln. pose proof (Z.log2_nonneg d) as Hld.
  set (ln := Z.log2 n) in *. set (ld := Z.log2 d) in *.
  assert (Hqd : q == inject_Z n / inject_Z d) by apply Qmake_as_div.
  assert (Hdq : 0 < inject_Z d) by (rewrite <- (Zlt_Qlt 0); exact Hd).
  assert (Hlow : 2 ^ (ln - ld - 1) <= q).
  { rewrite Hqd. apply Qle_shift_div_l; [exact Hdq |].
    apply Qle_trans with (2 ^ (ln - ld - 1) * 2 ^ (ld + 1)).
    - apply Qmult_le_compat_nonneg.
      + split; [apply Qlt_le_weak, Qpower2_pos | apply Qle_refl].
      + split; [apply Qlt_le_weak, Hdq |].
        rewrite Qpower2_inject by lia. rewrite <- Zle_Qle.
        replace (ld + 1)%Z with (Z.succ ld) by lia. lia.
    - rewrite <- Qpower2_plus. replace (ln - ld - 1 + (ld + 1))%Z with ln by lia.
      rewrite Qpower2_inject by lia. rewrite <- Zle_Qle. exact Hn1. }
  assert (Hhigh : q < 2 ^ (ln - ld + 1)).
  { rewrite Hqd. apply Qlt_shift_div_r; [exact Hdq |].
    apply Qlt_le_trans with (2 ^ (ln - ld + 1) * 2 ^ ld).
    - rewrite <- Qpower2_plus. replace (ln - ld + 1 + ld)%Z with (Z.succ ln) by lia.
      rewrite Qpower2_inject by lia. rewrite <- Zlt_Qlt. exact Hn2.
    - apply Qmult_le_compat_nonneg.
      + split; [apply Qlt_le_weak, Qpower2_pos | apply Qle_refl].
      + split; [apply Qlt_le_weak, Qpower2_pos |].
        rewrite Qpower2_inject by lia. rewrite <- Zle_Qle. exact Hd1. }
  destruct (Qle_bool (2 ^ (ln - ld)) q) eqn:Hb.
  - apply Qle_bool_iff in Hb. split; [exact Hb | exact Hhigh].
  - split; [exact Hlow |].
    replace (ln - ld - 1 + 1)%Z with (ln - ld)%Z by lia.
    apply Qnot_le_lt. intros Hle. apply Qle_bool_iff in Hle. congruence.
Qed.

Lemma round_half_even_comp (q q' : Q) : q == q' -> Binary64.round_half_even q = Binary64.round_half_even q'.
Proof.
  intros H. unfold Binary64.round_half_even. rewrite (Qfloor_comp _ _ H).
  assert (Hc : (q - inject_Z (Qfloor q') ?= 1 # 2) = (q' - inject_Z (Qfloor q') ?= 1 # 2))
    by (by rewrite H).
  by rewrite Hc.
Qed.

Lemma round_half_even_Z (z : Z) : Binary64.round_half_even (inject_Z z) = z.
Proof.
  unfold Binary64.round_half_even. rewrite Qfloor_Z.
  assert (Hc : (inject_Z z - inject_Z z ?= 1 # 2) = Lt).
  { apply Qlt_alt. assert (H0 : inject_Z z - inject_Z z == 0) by ring. rewrite H0. reflexivity. }
  by rewrite Hc.
Qed.

(** The nearest integer is at most one half away. *)
Lemma round_half_even_error (q : Q) :
  q - (1 # 2) <= inject_Z (Binary64.round_half_even q) /\ inject_Z (Binary64.round_half_even q) <= q + (1 # 2).
Proof.
  unfold Binary64.round_half_even.
  pose proof (Qfloor_le q) as Hlo. pose proof (Qlt_floor q) as Hhi.
  rewrite inject_Z_plus in Hhi. change (inject_Z 1) with 1 in Hhi.
  set (f := Qfloor q) in *.
  destruct (Qcompare_spec (q - inject_Z f) (1 # 2)) as [He | Hl | Hg].
  - destruct (Z.even f); [| rewrite inject_Z_plus; change (inject_Z 1) with 1]; lra.
  - lra.
  - rewrite inject_Z_plus. change (inject_Z 1) with 1. lra.
Qed.

Lemma round_half_even_nonneg (q : Q) : 0 <= q -> (0 <= Binary64.round_half_even q)%Z.
Proof.
  intros Hq. unfold Binary64.round_half_even.
  assert (Hf : (0 <= Qfloor q)%Z).
  { change 0%Z with (Qfloor 0). by apply Qfloor_resp_le. }
  destruct (_ ?= _); [destruct (Z.even _) | |]; lia.
Qed.

(** The error of rounding a positive number is at most the number
    times 2^-53. *)
Lemma round_pos_error (q : Q) :
  0 < q -> q * (1 - Binary64.u) <= Binary64.round_pos q /\ Binary64.round_pos q <= q * (1 + Binary64.u).
Proof.
  intros Hq. unfold Binary64.round_pos. rewrite Qred_correct.
  destruct (floor_log2_spec q Hq) as [Hlow _].
  set (e := (Binary64.floor_log2 q - 52)%Z) in *.
  pose proof (Qpower2_pos e) as He.
  destruct (round_half_even_error (q / 2 ^ e)) as [Hm1 Hm2].
  set (m := inject_Z (Binary64.round_half_even (q / 2 ^ e))) in *.
  assert (Hscale : 2 ^ e * (2 ^ 52) <= q).
  { rewrite <- Qpower2_plus. by replace (e + 52)%Z with (Binary64.floor_log2 q) by (unfold e; lia). }
  assert (Hq' : q / 2 ^ e * 2 ^ e == q) by (field; lra).
  assert (H52 : (2 : Q) ^ 52 == 4503599627370496) by reflexivity.
  rewrite H52 in Hscale.
  assert (Hlo : (q / 2 ^ e - (1 # 2)) * 2 ^ e <= m * 2 ^ e)
    by (apply Qmult_le_compat_r; lra).
  assert (Hhi : m * 2 ^ e <= (q / 2 ^ e + (1 # 2)) * 2 ^ e)
    by (apply Qmult_le_compat_r; lra).
  assert (Hdist1 : (q / 2 ^ e - (1 # 2)) * 2 ^ e == q - (1 # 2) * 2 ^ e)
    by (field; lra).
  assert (Hdist2 : (q / 2 ^ e + (1 # 2)) * 2 ^ e == q + (1 # 2) * 2 ^ e)
    by (field; lra).
  rewrite Hdist1 in Hlo. rewrite Hdist2 in Hhi. unfold Binary64.u.
  split; lra.
Qed.

Lemma round_comp (q q' : Q) : q == q' -> Binary64.round q = Binary64.round q'.
Proof. intros H. unfold Binary64.round. by rewrite (Qred_complete _ _ H). Qed.

Lemma Qnum_sign (q : Q) :
  match Qnum q with
  | Z0 => q == 0
  | Zpos _ => 0 < q
  | Zneg _ => q < 0
  end.
Proof. destruct q as [[| n | n] d]; unfold Qeq, Qlt; cbn; lia. Qed.

Lemma round_pos_comp (q q' : Q) : 0 < q -> q == q' -> Binary64.round_pos q == Binary64.round_pos q'.
Proof.
  intros Hq H. unfold Binary64.round_pos. rewrite !Qred_correct.
  assert (Hq' : 0 < q') by (by rewrite <- H).
  assert (Hfl : Binary64.floor_log2 q = Binary64.floor_log2 q').
  { destruct (floor_log2_spec q Hq) as [H1 H2].
    destruct (floor_log2_spec q' Hq') as [H1' H2'].
    destruct (Z.lt_trichotomy (Binary64.floor_log2 q) (Binary64.floor_log2 q')) as [Hlt | [Heq | Hgt]];
      [exfalso | exact Heq | exfalso].
    - assert (2 ^ (Binary64.floor_log2 q + 1) <= 2 ^ Binary64.floor_log2 q') by (apply Qpower2_le; lia). lra.
    - assert (2 ^ (Binary64.floor_log2 q' + 1) <= 2 ^ Binary64.floor_log2 q) by (apply Qpower2_le; lia). lra. }
  rewrite Hfl.
  rewrite (round_half_even_comp (q / 2 ^ (Binary64.floor_log2 q' - 52))
                                (q' / 2 ^ (Binary64.floor_log2 q' - 52))); [reflexivity |].
  by rewrite H.
Qed.

(** Rounding a nonnegative number. *)
Lemma round_nonneg_cases (q : Q) :
  0 <= q -> (q == 0 /\ Binary64.round q = 0) \/ (0 < q /\ Binary64.round q == Binary64.round_pos q).
Proof.
  intros Hq. unfold Binary64.round.
  pose proof (Qnum_sign (Qred q)) as Hs. pose proof (Qred_correct q) as Hr.
  destruct (Qnum (Qred q)).
  - left. split; [by rewrite <- Hr | reflexivity].
  - right. assert (0 < q) by (by rewrite <- Hr).
    split; [done |]. apply round_pos_comp; [done | exact Hr].
  - exfalso. rewrite Hr in Hs. lra.
Qed.

Lemma round_error (q : Q) :
  0 <= q -> q * (1 - Binary64.u) <= Binary64.round q /\ Binary64.round q <= q * (1 + Binary64.u).
Proof.
  intros Hq. destruct (round_nonneg_cases q Hq) as [[H0 ->] | [Hpos ->]].
  - rewrite H0. split; apply Qle_lteq; right; ring.
  - by apply round_pos_error.
Qed.

Lemma round_nonneg (q : Q) : 0 <= q -> 0 <= Binary64.round q.
Proof.
  intros Hq. destruct (round_error q Hq) as [Hlo _].
  eapply Qle_trans; [| exact Hlo]. apply Qmult_le_0_compat; [exact Hq | discriminate].
Qed.

(** An integer up to 2^53 is a double. *)
Lemma round_Z (z : Z) : (0 <= z <= 2 ^ 53)%Z -> Binary64.round (inject_Z z) == inject_Z z.
Proof.
  intros [Hz0 Hz].
  assert (Hq : 0 <= inject_Z z) by (rewrite <- (Zle_Qle 0); exact Hz0).
  destruct (round_nonneg_cases _ Hq) as [[H0 ->] | [Hpos ->]]; [by rewrite H0 |].
  unfold Binary64.round_pos. rewrite Qred_correct.
  destruct (floor_log2_spec _ Hpos) as [Hlow _].
  set (fl := Binary64.floor_log2 (inject_Z z)) in *.
  assert (Hfl : (fl <= 53)%Z).
  { destruct (Z_le_gt_dec fl 53) as [? | Hgt]; [done | exfalso].
    assert (H54 : 2 ^ 54 <= 2 ^ fl) by (apply Qpower2_le; lia).
    assert (Hz53 : inject_Z z <= 2 ^ 53).
    { rewrite Qpower2_inject by lia. by rewrite <- Zle_Qle. }
    assert (Hlt : (2 : Q) ^ 53 < 2 ^ 54) by reflexivity. lra. }
  destruct (Z_le_gt_dec fl 52) as [Hle | Hgt].
  - (* the quotient by 2 ^ e is z * 2 ^ (52 - fl) *)
    assert (Hint : inject_Z z / 2 ^ (fl - 52) == inject_Z (z * 2 ^ (52 - fl))).
    { rewrite inject_Z_mult, <- Qpower2_inject by lia.
      replace (52 - fl)%Z with (- (fl - 52))%Z by lia. rewrite Qpower_opp.
      reflexivity. }
    rewrite (round_half_even_comp _ _ Hint), round_half_even_Z.
    rewrite inject_Z_mult, <- Qpower2_inject by lia.
    replace (52 - fl)%Z with (- (fl - 52))%Z by lia. rewrite Qpower_opp.
    field. pose proof (Qpower2_pos (fl - 52)). lra.
  - assert (Hfl53 : fl = 53%Z) by lia. rewrite Hfl53 in *.
    assert (Hz53 : z = (2 ^ 53)%Z).
    { rewrite Qpower2_inject in Hlow by lia. rewrite <- Zle_Qle in Hlow. lia. }
    rewrite Hz53. reflexivity.
Qed.

(** A positive number rounds to a number of its binade, or to the next
    power of two. *)
Lemma round_pos_upper (q : Q) :
  0 < q -> Binary64.round_pos q <= 2 ^ (Binary64.floor_log2 q + 1).
Proof.
  intros Hq. unfold Binary64.round_pos. rewrite Qred_correct.
  destruct (floor_log2_spec q Hq) as [_ Hup].
  set (e := (Binary64.floor_log2 q - 52)%Z) in *.
  replace (Binary64.floor_log2 q + 1)%Z with (e + 53)%Z in * by (unfold e; lia).
  rewrite Qpower2_plus in *.
  pose proof (Qpower2_pos e) as He.
  destruct (round_half_even_error (q / 2 ^ e)) as [_ Hm].
  assert (H53 : (2 : Q) ^ 53 == inject_Z (2 ^ 53)) by reflexivity.
  rewrite H53 in *.
  assert (Ht : q / 2 ^ e < inject_Z (2 ^ 53)).
  { apply Qlt_shift_div_r; [exact He |]. lra. }
  assert (Hz : (Binary64.round_half_even (q / 2 ^ e) <= 2 ^ 53)%Z).
  { apply Z.lt_succ_r. rewrite Zlt_Qlt. unfold Z.succ. rewrite inject_Z_plus.
    change (inject_Z 1) with 1. lra. }
  rewrite Zle_Qle in Hz. rewrite (Qmult_comm (2 ^ e)).
  apply Qmult_le_compat_r; lra.
Qed.

(** A number of at most 1 rounds to a number of at most 1. *)
Lemma round_le_1 (q : Q) : q <= 1 -> Binary64.round q <= 1.
Proof.
  intros Hq. destruct (Qlt_le_dec q 1) as [Hlt | Hge].
  - unfold Binary64.round.
    pose proof (Qnum_sign (Qred q)) as Hs. pose proof (Qred_correct q) as Hr.
    destruct (Qnum (Qred q)).
    + discriminate.
    + assert (Hpos : 0 < Qred q) by exact Hs.
      eapply Qle_trans; [apply round_pos_upper; exact Hpos |].
      destruct (floor_log2_spec _ Hpos) as [Hlow _].
      change 1 with (2 ^ 0). apply Qpower2_le.
      destruct (Z_le_gt_dec (Binary64.floor_log2 (Qred q) + 1) 0) as [? | Hgt]; [done | exfalso].
      assert (H1 : 2 ^ 0 <= 2 ^ Binary64.floor_log2 (Qred q)) by (apply Qpower2_le; lia).
      change (2 ^ 0) with 1 in H1. lra.
    + assert (Hneg : 0 < - Qred q) by lra.
      destruct (round_pos_error _ Hneg) as [Hlo _]. unfold Binary64.u in Hlo. lra.
  - assert (H1 : q == 1) by lra. rewrite (round_comp q 1 H1). discriminate.
Qed.
End Binary64Facts.

(** * Properties of [aggregate_data] *)

Section Aggregate.

Implicit Types (data : list (gmap string Qc)) (dist aggregated : gmap string Qc).

(** One input mapping adds its value at [key], if it has one. *)
Lemma aggregate_dist_lookup total key dist aggregated :
  map_fold (aggregate_key total) aggregated dist !! key =
  match (dist !! key : option Qc) with
  | Some value =>
      Some (Q2Qc (Binary64.add (default 0%Qc (aggregated !! key)) (Binary64.div value total)))
  | None => aggregated !! key
  end.
Proof.
  apply (map_fold_weak_ind (fun r m =>
    r !! key = match (m !! key : option Qc) with
               | Some value =>
                   Some (Q2Qc (Binary64.add (default 0%Qc (aggregated !! key))
                                            (Binary64.div value total)))
               | None => aggregated !! key
               end)).
  - by rewrite lookup_empty.
  - intros i x m r Hi IH. unfold aggregate_key.
    destruct (decide (i = key)) as [-> | Hne].
    + rewrite !lookup_insert_eq. rewrite IH, Hi. reflexivity.
    + rewrite !lookup_insert_ne by done. exact IH.
Qed.

Lemma key_fold_cons total key (start : option Qc) dist data :
  key_fold total key start (dist :: data) =
  key_fold total key
    (match (dist !! key : option Qc) with
     | Some value =>
         Some (Q2Qc (Binary64.add (default 0%Qc start) (Binary64.div value total)))
     | None => start
     end) data.
Proof. reflexivity. Qed.

Lemma aggregate_fold_lookup total key data aggregated :
  foldl (fun aggregated dist => map_fold (aggregate_key total) aggregated dist)
        aggregated data !! key
  = key_fold total key (aggregated !! key) data.
Proof.
  revert aggregated. induction data as [| dist data IH]; intros aggregated; [reflexivity |].
  cbn [foldl]. rewrite IH, aggregate_dist_lookup, key_fold_cons.
  by destruct (dist !! key).
Qed.

Lemma aggregate_data_lookup data (normalize : bool) key :
  aggregate_data data normalize !! key =
  key_fold (if normalize then Q2Qc (inject_Z (Z.of_nat (length data))) else 1%Qc)
           key None data.
Proof. unfold aggregate_data. by rewrite aggregate_fold_lookup, lookup_empty. Qed.

(** A key is kept as soon as one mapping has it. *)
Lemma key_fold_None total key (start : option Qc) data :
  key_fold total key start data = None ↔ start = None ∧ key_present key data = false.
Proof.
  revert start. induction data as [| dist data IH]; intros start.
  - cbn. tauto.
  - rewrite key_fold_cons, IH. cbn [key_present existsb].
    fold (key_present key data). rewrite orb_false_iff, bool_decide_eq_false.
    destruct (dist !! key) as [value |].
    + split; [intros [? _]; discriminate | intros [_ [H _]]; exfalso; eauto].
    + split; [intros [? ?] | intros [? [_ ?]]]; (split; [done |]); [| done].
      split; [by intros [? ?] | done].
Qed.

(** *** Counts: the sums are exact *)

Lemma count_eq (n m : nat) (q : Q) :
  (q == inject_Z (Z.of_nat n))%Q → Q2Qc q = Q2Qc (inject_Z (Z.of_nat n)).
Proof. intros H. by apply Q2Qc_eq_iff. Qed.

Lemma count_this (n : nat) : (Q2Qc (inject_Z (Z.of_nat n)) : Q) == inject_Z (Z.of_nat n).
Proof. apply Qred_correct. Qed.

(** A count divided by 1 and added to a count, when the sum is at most 2^53. *)
Lemma add_count (a n : nat) :
  (Z.of_nat (a + n) ≤ 2 ^ 53)%Z →
  Q2Qc (Binary64.add (Q2Qc (inject_Z (Z.of_nat a)))
                     (Binary64.div (Q2Qc (inject_Z (Z.of_nat n))) 1%Qc))
  = Q2Qc (inject_Z (Z.of_nat (a + n))).
Proof.
  intros Hb. apply Q2Qc_eq_iff. unfold Binary64.add, Binary64.div.
  assert (Hn : (Binary64.round (Q2Qc (inject_Z (Z.of_nat n)) / 1%Qc) == inject_Z (Z.of_nat n))%Q).
  { rewrite (round_comp _ (inject_Z (Z.of_nat n))).
    - apply round_Z. lia.
    - rewrite count_this. change (this 1%Qc) with 1%Q. field. }
  rewrite (round_comp _ (inject_Z (Z.of_nat (a + n)))).
  - apply round_Z. lia.
  - rewrite Hn, count_this, Nat2Z.inj_add, inject_Z_plus. reflexivity.
Qed.

Lemma key_fold_counts (key : string) (tallies : list (gmap string nat)) (a : nat) :
  (Z.of_nat (a + key_count key tallies) ≤ 2 ^ 53)%Z →
  key_fold 1 key (Some (Q2Qc (inject_Z (Z.of_nat a)))) (of_counts <$> tallies)
  = Some (Q2Qc (inject_Z (Z.of_nat (a + key_count key tallies)))).
Proof.
  revert a. induction tallies as [| tally tallies IH]; intros a Hb.
  - cbn. by rewrite Nat.add_0_r.
  - rewrite fmap_cons, key_fold_cons. cbn [key_count foldr] in *.
    fold (key_count key tallies) in *.
    unfold of_counts at 1. rewrite lookup_fmap.
    destruct (tally !! key) as [n |]; cbn [fmap option_fmap option_map default] in *.
    + unfold default, from_option, Datatypes.id in *.
      rewrite add_count by lia. rewrite IH by lia. do 3 f_equal. lia.
    + by rewrite IH.
Qed.

Lemma key_present_counts (key : string) (tallies : list (gmap string nat)) :
  key_present key (of_counts <$> tallies)
  = existsb (fun tally => bool_decide (is_Some (tally !! key))) tallies.
Proof.
  unfold key_present. induction tallies as [| tally tallies IH]; [reflexivity |].
  rewrite fmap_cons. cbn [existsb]. rewrite IH. f_equal.
  unfold of_counts. rewrite lookup_fmap. apply bool_decide_ext.
  by rewrite fmap_is_Some.
Qed.

Lemma key_total_counts (key : string) (tallies : list (gmap string nat)) :
  key_total 1 key (of_counts <$> tallies) = Q2Qc (inject_Z (Z.of_nat (key_count key tallies))).
Proof.
  induction tallies as [| tally tallies IH]; [by apply Qc_is_canon |].
  rewrite fmap_cons. cbn [key_total foldr key_count].
  fold (key_total 1 key (of_counts <$> tallies)). fold (key_count key tallies).
  rewrite IH. unfold of_counts at 1. rewrite lookup_fmap.
  apply Qc_is_canon. destruct (tally !! key) as [n |]; simpl.
  - rewrite !Qred_correct, Nat2Z.inj_add, inject_Z_plus. field.
  - rewrite !Qred_correct. field.
Qed.

(** Without normalization the aggregate of counts is their exact sum. *)
Lemma aggregate_counts (key : string) (tallies : list (gmap string nat)) :
  (Z.of_nat (key_count key tallies) ≤ 2 ^ 53)%Z →
  aggregate_data (of_counts <$> tallies) false !! key =
  if key_present key (of_counts <$> tallies)
  then Some (key_total 1 key (of_counts <$> tallies))
  else None.
Proof.
  intros Hb. rewrite aggregate_data_lookup, key_total_counts, key_present_counts.
  destruct (existsb _ tallies) eqn:Hp.
  - revert Hb Hp. induction tallies as [| tally tallies IH]; intros Hb Hp; [discriminate |].
    rewrite fmap_cons, key_fold_cons. cbn [key_count foldr existsb] in *.
    fold (key_count key tallies) in *.
    unfold of_counts at 1. rewrite lookup_fmap.
    destruct (tally !! key) as [n |]; cbn [fmap option_fmap option_map] in *.
    + unfold default, from_option, Datatypes.id in *.
      change (Q2Qc 0) with (Q2Qc (inject_Z (Z.of_nat 0))).
      rewrite add_count by lia. cbn [Nat.add]. by rewrite key_fold_counts by lia.
    + rewrite bool_decide_false in Hp by (by intros [? ?]). cbn [orb] in Hp.
      unfold default, from_option, Datatypes.id in *. cbn [Nat.add] in *.
      by apply IH.
  - apply key_fold_None. split; [done |]. by rewrite key_present_counts.
Qed.

End Aggregate.

(** C9, as the claim states it, fails: the values are added in double
    precision.  For six mappings with one outcome counted once and
    [normalize=True], the sum of the six values divided by 6 is 1, and
    the value returned is 0.9999999999999999, that is 1 - 2^-53. *)
Lemma aggregate_sum_rounded :
  key_total (Q2Qc (inject_Z (Z.of_nat (length example_sixths)))) "a" example_sixths = 1%Qc ∧
  aggregate_data example_sixths true !! "a"
    = Some (Q2Qc (9007199254740991 # 9007199254740992)) ∧
  aggregate_data example_sixths true !! "a" ≠ Some 1%Qc.
Proof.
  assert (Hv : aggregate_data example_sixths true !! "a"
               = Some (Q2Qc (9007199254740991 # 9007199254740992))).
  { rewrite aggregate_data_lookup. vm_compute. reflexivity. }
  split; [apply Qc_is_canon; vm_compute; reflexivity |].
  split; [exact Hv |].
  rewrite Hv. intros H. apply (f_equal (fmap (fun q : Qc => Qnum (this q)))) in H.
  vm_compute in H. discriminate H.
Qed.

(** C9, amended.  [aggregate_data] returns one mapping.  A key is in it
    exactly when it is in some input mapping.  Its value is then the sum
    the code accumulates in double precision: starting from the first
    input mapping that has the key and going through the input mappings
    in order, the value at the key, divided by the number of input
    mappings when [normalize] is true (by 1 otherwise), is added to the
    value kept so far (0 at first), each quotient and each sum rounded
    to a double; a mapping without the key leaves the value as it is.
    For counts that are natural numbers, without normalization, and a sum
    of at most 2^53, the value is the exact sum of the counts.  On
    [{"00":3,"01":1}, {"00":1}] the result is {"00":4,"01":1} without
    normalization and {"00":2,"01":1/2} with it. *)
Theorem aggregate_data_sums (data : list (gmap string Qc)) (normalize : bool) (key : string) :
  aggregate_data data normalize !! key
    = key_fold (if normalize then Q2Qc (inject_Z (Z.of_nat (length data))) else 1%Qc)
               key None data ∧
  (is_Some (aggregate_data data normalize !! key) ↔ key_present key data = true) ∧
  (∀ tallies : list (gmap string nat),
     (Z.of_nat (key_count key tallies) ≤ 2 ^ 53)%Z →
     aggregate_data (of_counts <$> tallies) false !! key =
       if key_present key (of_counts <$> tallies)
       then Some (key_total 1 key (of_counts <$> tallies))
       else None) ∧
  aggregate_data example_data false = {[ "00" := qc 4 1; "01" := qc 1 1 ]} ∧
  aggregate_data example_data true = {[ "00" := qc 2 1; "01" := qc 1 2 ]}.
Proof.
  split; [apply aggregate_data_lookup |].
  split.
  { rewrite aggregate_data_lookup, <- not_eq_None_Some, key_fold_None.
    destruct (key_present key data); split.
    - done.
    - by intros _ [_ ?].
    - intros H. exfalso. by apply H.
    - done. }
  split; [apply aggregate_counts |].
  assert (Hother : ∀ k total, k ≠ "00" → k ≠ "01" → key_fold total k None example_data = None).
  { intros k total H0 H1. apply key_fold_None. split; [done |].
    unfold example_data. cbn [key_present existsb].
    rewrite !bool_decide_false; [done | |]; intros [v Hv]; simplify_map_eq. }
  split; apply map_eq; intros k; rewrite aggregate_data_lookup;
    (destruct (decide (k = "00")) as [-> | H00];
     [ | destruct (decide (k = "01")) as [-> | H01] ]);
    [ | | rewrite Hother by done; by simplify_map_eq
      | | | rewrite Hother by done; by simplify_map_eq ];
    vm_compute; reflexivity.
Qed.

Lemma aggregate_data_sums_witness :
  aggregate_data (of_counts <$> example_tallies) false !! "00" =
    if key_present "00" (of_counts <$> example_tallies)
    then Some (key_total 1 "00" (of_counts <$> example_tallies))
    else None.
Proof.
  assert (Hb : (Z.of_nat (key_count "00" example_tallies) ≤ 2 ^ 53)%Z)
    by (vm_compute; discriminate).
  exact (proj1 (proj2 (proj2 (aggregate_data_sums [] false "00"))) example_tallies Hb).
Defined.

(** * Properties of the random selection *)

Section Selection.

Implicit Types (x : list nat) (g : BitGenerator).

Lemma transpose_index_involutive i j k :
  transpose_index i j (transpose_index i j k) = k.
Proof. unfold transpose_index. repeat case_decide; congruence. Qed.

Lemma swap_lookup i j x k :
  i < length x → j < length x →
  swap i j x !! k = x !! transpose_index i j k.
Proof.
  intros Hi Hj. unfold swap.
  destruct (lookup_lt_is_Some_2 x i Hi) as [a Ha].
  destruct (lookup_lt_is_Some_2 x j Hj) as [b Hb].
  rewrite Ha, Hb. unfold transpose_index.
  destruct (decide (k = j)) as [-> | Hkj].
  - rewrite list_lookup_insert_eq by (rewrite length_insert; lia).
    case_decide; subst; congruence.
  - rewrite list_lookup_insert_ne by done.
    destruct (decide (k = i)) as [-> | Hki].
    + rewrite list_lookup_insert_eq by lia. congruence.
    + rewrite list_lookup_insert_ne by done. reflexivity.
Qed.

Lemma swap_length i j x : length (swap i j x) = length x.
Proof.
  unfold swap. destruct (x !! i), (x !! j); rewrite ?length_insert; reflexivity.
Qed.

Lemma swap_Permutation i j x : swap i j x ≡ₚ x.
Proof.
  destruct (decide (i < length x)) as [Hi |].
  2: { unfold swap. rewrite (lookup_ge_None_2 x i) by lia. reflexivity. }
  destruct (decide (j < length x)) as [Hj |].
  2: { unfold swap. rewrite (lookup_ge_None_2 x j) by lia.
       destruct (x !! i); reflexivity. }
  apply Permutation_inj. split; [apply swap_length |].
  exists (transpose_index i j). split.
  - intros k1 k2 H. rewrite <- (transpose_index_involutive i j k1), H.
    apply transpose_index_involutive.
  - intros k. by apply swap_lookup.
Qed.

Lemma shuffle_from_Permutation i x g : (shuffle_from i x g).1 ≡ₚ x.
Proof.
  revert x g. induction i as [| i IH]; intros x g; [reflexivity |].
  cbn [shuffle_from]. destruct (random_interval (S i) g) as [j g'].
  rewrite IH. apply swap_Permutation.
Qed.

Lemma permutation_Permutation n g : (permutation n g).1 ≡ₚ seq 0 n.
Proof. apply shuffle_from_Permutation. Qed.

(** The draws are in range. *)
Lemma integers_range low high g r g' :
  integers low high g = Ok (r, g') →
  low ≤ r < high ∧ r = low + stream g (position g) mod (high - low) ∧
  g' = mkBitGenerator (stream g) (S (position g)).
Proof.
  unfold integers. case_decide; [discriminate |]. cbn.
  intros [= <- <-]. split; [| done].
  pose proof (Nat.mod_upper_bound (stream g (position g)) (high - low)). lia.
Qed.

Lemma integers_ok low high g :
  low < high →
  integers low high g =
    Ok (low + stream g (position g) mod (high - low),
        mkBitGenerator (stream g) (S (position g))).
Proof. intros H. unfold integers. case_decide; [lia | reflexivity]. Qed.

(** A sample without replacement: [size] different indices below [a]. *)
Lemma choice_spec (a : nat) (size : Z) g :
  (0 ≤ size ≤ Z.of_nat a)%Z →
  ∃ idxs g',
    choice a size g = Ok (idxs, g') ∧
    idxs = take (Z.to_nat size) (permutation a g).1 ∧
    length idxs = Z.to_nat size ∧
    NoDup idxs ∧
    ∀ i, i ∈ idxs → i < a.
Proof.
  intros [H0 Ha]. unfold choice.
  destruct (decide (size < 0)%Z); [lia |].
  destruct (decide (a = 0 ∧ size ≠ 0%Z)); [lia |].
  destruct (decide (Z.of_nat a < size)%Z); [lia |].
  pose proof (permutation_Permutation a g) as Hp.
  destruct (permutation a g) as [p g']. cbn [fst] in *.
  exists (take (Z.to_nat size) p), g'.
  split; [reflexivity |]. split; [reflexivity |].
  assert (Hlen : length p = a) by (rewrite Hp; apply length_seq).
  split; [apply length_take_le; lia |].
  split.
  - eapply sublist_NoDup; [| apply sublist_take].
    rewrite Hp. apply NoDup_seq.
  - intros i Hi. apply (elem_of_sublist _ p) in Hi; [| apply sublist_take].
    rewrite Hp in Hi. apply elem_of_seq in Hi. lia.
Qed.

(** When every index is asked for, every index is selected. *)
Lemma choice_all (a : nat) g idxs g' :
  choice a (Z.of_nat a) g = Ok (idxs, g') →
  ∀ i, i < a → i ∈ idxs.
Proof.
  intros Hc i Hi.
  destruct (choice_spec a (Z.of_nat a) g) as (idxs0 & g0 & Hc0 & Hidx & _); [lia |].
  rewrite Hc in Hc0. injection Hc0 as -> ->.
  pose proof (permutation_Permutation a g) as Hp.
  rewrite Hidx, Nat2Z.id, take_ge.
  - rewrite Hp. apply elem_of_seq. lia.
  - rewrite Hp, length_seq. lia.
Qed.

End Selection.

(** * Properties of the folding arithmetic *)

Section FoldingArithmetic.

Local Open Scope Z_scope.

(** The ceiling of the scale factor as a float. *)
Lemma ceiling_round_bound (value : Q) :
  (0 <= value)%Q → (value <= inject_Z (2 ^ 50))%Q →
  0 ≤ Qceiling (Binary64.round value) ≤ 2 ^ 50 + 1.
Proof.
  intros H0 Hb. destruct (round_error value H0) as [_ Hhi].
  pose proof (round_nonneg value H0) as Hnn.
  unfold Binary64.u in Hhi.
  change (inject_Z (2 ^ 50)) with (1125899906842624 # 1)%Q in Hb.
  split.
  - change 0 with (Qceiling 0). by apply Qceiling_resp_le.
  - rewrite <- (Qceiling_Z (2 ^ 50 + 1)). apply Qceiling_resp_le.
    change (inject_Z (2 ^ 50 + 1)) with (1125899906842625 # 1)%Q. lra.
Qed.

Lemma next_odd_formula (value : Q) :
  (0 <= value)%Q → (value <= inject_Z (2 ^ 50))%Q →
  _next_odd_if_not_odd value = 2 * (Qceiling (Binary64.round value) / 2) + 1.
Proof.
  intros H0 Hb. pose proof (ceiling_round_bound value H0 Hb) as Hc.
  unfold _next_odd_if_not_odd.
  set (c := Qceiling (Binary64.round value)) in *.
  pose proof (Z.div_mod c 2 ltac:(lia)) as Hdm.
  pose proof (Z.mod_pos_bound c 2 ltac:(lia)) as Hm.
  assert (He : (inject_Z (c / 2 * 2) + 1 == inject_Z (c / 2 * 2 + 1))%Q)
    by (by rewrite inject_Z_plus).
  rewrite (round_comp _ _ He), round_Z, Qfloor_Z; lia.
Qed.

Lemma next_odd_is_odd (value : Q) :
  (0 <= value)%Q → (value <= inject_Z (2 ^ 50))%Q →
  Z.odd (_next_odd_if_not_odd value) = true.
Proof.
  intros H0 Hb.
  rewrite next_odd_formula, Z.add_comm, Z.odd_add_mul_2 by done. reflexivity.
Qed.

Lemma next_odd_ge (value : Q) :
  (0 <= value)%Q → (value <= inject_Z (2 ^ 50))%Q →
  Qceiling (Binary64.round value) ≤ _next_odd_if_not_odd value.
Proof.
  intros H0 Hb. rewrite next_odd_formula by done.
  pose proof (Z.div_mod (Qceiling (Binary64.round value)) 2 ltac:(lia)).
  pose proof (Z.mod_pos_bound (Qceiling (Binary64.round value)) 2 ltac:(lia)). lia.
Qed.

Lemma next_odd_least (value : Q) (m : Z) :
  (0 <= value)%Q → (value <= inject_Z (2 ^ 50))%Q →
  Z.odd m = true → Qceiling (Binary64.round value) ≤ m → _next_odd_if_not_odd value ≤ m.
Proof.
  intros H0 Hb Hodd Hle. rewrite next_odd_formula by done.
  pose proof (Z.div_mod (Qceiling (Binary64.round value)) 2 ltac:(lia)) as Hdm.
  pose proof (Z.mod_pos_bound (Qceiling (Binary64.round value)) 2 ltac:(lia)) as Hm.
  apply Z.odd_spec in Hodd as [k ->]. lia.
Qed.

(** A float above 1 is the float of a number above 1. *)
Lemma round_gt_1 (value : Q) : (1 < Binary64.round value)%Q → (1 < value)%Q.
Proof.
  intros H. destruct (Qlt_le_dec 1 value) as [? | Hle]; [done | exfalso].
  pose proof (round_le_1 value Hle). lra.
Qed.

Lemma next_odd_gt_1 (value : Q) :
  (1 < Binary64.round value)%Q → (value <= inject_Z (2 ^ 50))%Q →
  3 ≤ _next_odd_if_not_odd value ≤ 2 ^ 50 + 2.
Proof.
  intros Hv Hb. pose proof (round_gt_1 value Hv) as H1.
  assert (H0 : (0 <= value)%Q) by lra.
  pose proof (ceiling_round_bound value H0 Hb) as Hc.
  assert (2 ≤ Qceiling (Binary64.round value)).
  { pose proof (Qle_ceiling (Binary64.round value)) as Hle.
    assert (Hlt : (inject_Z 1 < inject_Z (Qceiling (Binary64.round value)))%Q)
      by (eapply Qlt_le_trans; [exact Hv | exact Hle]).
    rewrite <- Zlt_Qlt in Hlt. lia. }
  pose proof (next_odd_ge value H0 Hb) as Hge.
  rewrite next_odd_formula in * by done.
  pose proof (Z.div_mod (Qceiling (Binary64.round value)) 2 ltac:(lia)) as Hdm.
  pose proof (Z.mod_pos_bound (Qceiling (Binary64.round value)) 2 ltac:(lia)) as Hm.
  lia.
Qed.

Lemma round_le_next_odd (value : Q) :
  (0 <= value)%Q → (value <= inject_Z (2 ^ 50))%Q →
  (Binary64.round value <= inject_Z (_next_odd_if_not_odd value))%Q.
Proof.
  intros H0 Hb. eapply Qle_trans; [apply Qle_ceiling |].
  rewrite <- Zle_Qle. by apply next_odd_ge.
Qed.

(** The denominator [float(Decimal(str(odd_fold_factor)) - 1)] is exact. *)
Lemma denominator_exact (odd_fold_factor : Z) :
  1 ≤ odd_fold_factor ≤ 2 ^ 53 →
  (Binary64.round (inject_Z odd_fold_factor - 1) == inject_Z (odd_fold_factor - 1))%Q.
Proof.
  intros Hb.
  assert (He : (inject_Z odd_fold_factor - 1 == inject_Z (odd_fold_factor - 1))%Q).
  { unfold Z.sub. rewrite inject_Z_plus. reflexivity. }
  rewrite (round_comp _ _ He). apply round_Z. lia.
Qed.

(** The rounded quotient stays below the number of gates plus one. *)
Lemma fold_quotient_bound (n scale y x p d : Q) :
  (0 <= n)%Q → (n <= inject_Z (2 ^ 50))%Q → (1 <= scale)%Q → (2 <= y)%Q →
  (scale * (1 - Binary64.u) <= y + 1)%Q →
  (0 <= x)%Q → (x <= (scale - 1) * (1 + Binary64.u))%Q →
  (0 <= p)%Q → (p <= n * x * (1 + Binary64.u))%Q →
  (d <= p / y * (1 + Binary64.u))%Q →
  (d < n + 1)%Q.
Proof.
  unfold Binary64.u. change (inject_Z (2 ^ 50)) with (1125899906842624 # 1)%Q.
  intros Hn0 Hn Hs Hy Hrs Hx0 Hx Hp0 Hp Hd.
  set (k := (9007199254740994 # 9007199254740991)%Q).
  assert (Hxy : (x <= k * y)%Q) by (unfold k; lra).
  assert (Hnx : (n * x <= n * (k * y))%Q).
  { rewrite !(Qmult_comm n). apply Qmult_le_compat_r; [exact Hxy | exact Hn0]. }
  assert (Hpy : (p / y <= n * k * (1 + (1 # 9007199254740992)))%Q).
  { apply Qle_shift_div_r; [lra |]. unfold k in *. lra. }
  unfold k in *. lra.
Qed.

End FoldingArithmetic.

(** For a scale factor above 1: the count is evaluated without an
    exception, and lies between 0 and the number of gates. *)
Lemma num_to_fold_ok (N : nat) (scale_factor : Q) :
  (1 < Binary64.round scale_factor)%Q → (scale_factor <= inject_Z (2 ^ 50))%Q →
  (Z.of_nat N ≤ 2 ^ 50)%Z →
  ∃ num_to_fold,
    num_2q_gates_to_be_folded N scale_factor (_next_odd_if_not_odd scale_factor)
      = Ok num_to_fold ∧
    (0 ≤ num_to_fold ≤ Z.of_nat N)%Z.
Proof.
  intros Hr Hb HN. pose proof (round_gt_1 _ Hr) as Hsf.
  assert (H0 : (0 <= scale_factor)%Q) by lra.
  destruct (next_odd_gt_1 _ Hr Hb) as [H3 Hoff].
  pose proof (round_le_next_odd _ H0 Hb) as Hle.
  destruct (round_error _ H0) as [Hlo _].
  set (odd_fold_factor := _next_odd_if_not_odd scale_factor) in *.
  assert (Hden : (Binary64.round (inject_Z odd_fold_factor - 1)
                  == inject_Z (odd_fold_factor - 1))%Q) by (apply denominator_exact; lia).
  assert (Hy2 : (2 <= inject_Z (odd_fold_factor - 1))%Q).
  { change 2%Q with (inject_Z 2). rewrite <- Zle_Qle. lia. }
  assert (Hy1 : (inject_Z (odd_fold_factor - 1) + 1 == inject_Z odd_fold_factor)%Q).
  { change 1%Q with (inject_Z 1). rewrite <- inject_Z_plus.
    by replace (odd_fold_factor - 1 + 1)%Z with odd_fold_factor by lia. }
  assert (Hnum : (Binary64.round (inject_Z (Z.of_nat N)) == inject_Z (Z.of_nat N))%Q)
    by (apply round_Z; lia).
  assert (Hn0 : (0 <= inject_Z (Z.of_nat N))%Q)
    by (change 0%Q with (inject_Z 0); rewrite <- Zle_Qle; lia).
  assert (Hnb : (inject_Z (Z.of_nat N) <= inject_Z (2 ^ 50))%Q) by (by rewrite <- Zle_Qle).
  assert (Hx0 : (0 <= scale_factor - 1)%Q) by lra.
  destruct (round_error _ Hx0) as [_ Hx]. pose proof (round_nonneg _ Hx0) as Hxn.
  unfold num_2q_gates_to_be_folded, Binary64.mul, Binary64.div.
  set (x := Binary64.round (scale_factor - 1)) in *.
  set (y := Binary64.round (inject_Z odd_fold_factor - 1)) in *.
  destruct (Qeq_bool y 0) eqn:Hy.
  { apply Qeq_bool_iff in Hy. rewrite Hden in Hy. lra. }
  assert (Hp : (Binary64.round (inject_Z (Z.of_nat N)) * x == inject_Z (Z.of_nat N) * x)%Q)
    by (by rewrite Hnum).
  rewrite (round_comp _ _ Hp).
  assert (Hp0 : (0 <= inject_Z (Z.of_nat N) * x)%Q) by (by apply Qmult_le_0_compat).
  destruct (round_error _ Hp0) as [_ Hpe]. pose proof (round_nonneg _ Hp0) as Hpn.
  set (p := Binary64.round (inject_Z (Z.of_nat N) * x)) in *.
  assert (Hq : (p / y == p / inject_Z (odd_fold_factor - 1))%Q) by (by rewrite Hden).
  rewrite (round_comp _ _ Hq).
  assert (Hq0 : (0 <= p / inject_Z (odd_fold_factor - 1))%Q).
  { apply Qle_shift_div_l; lra. }
  destruct (round_error _ Hq0) as [_ Hde]. pose proof (round_nonneg _ Hq0) as Hdn.
  set (d := Binary64.round (p / inject_Z (odd_fold_factor - 1))) in *.
  assert (Hd : (d < inject_Z (Z.of_nat N) + 1)%Q).
  { apply (fold_quotient_bound _ scale_factor (inject_Z (odd_fold_factor - 1)) x p d);
      try done; lra. }
  eexists. split; [reflexivity |]. split.
  - change 0%Z with (Qfloor 0). by apply Qfloor_resp_le.
  - apply Z.lt_succ_r. rewrite Zlt_Qlt. unfold Z.succ. rewrite inject_Z_plus.
    change (inject_Z 1) with 1%Q.
    eapply Qle_lt_trans; [apply Qfloor_le | exact Hd].
Qed.

(** With a scale factor of 3 the count is the number of gates. *)
Lemma num_to_fold_three (N : nat) (scale_factor : Q) :
  (scale_factor == 3)%Q → (Z.of_nat N ≤ 2 ^ 50)%Z →
  _next_odd_if_not_odd scale_factor = 3%Z ∧
  num_2q_gates_to_be_folded N scale_factor 3 = Ok (Z.of_nat N).
Proof.
  intros H3 HN. split.
  { unfold _next_odd_if_not_odd. by rewrite (round_comp _ _ H3). }
  unfold num_2q_gates_to_be_folded, Binary64.mul, Binary64.div.
  assert (Hx : (scale_factor - 1 == inject_Z 2)%Q) by (rewrite H3; reflexivity).
  rewrite (round_comp _ _ Hx).
  change (Binary64.round (inject_Z 2)) with (2 # 1)%Q.
  change (Binary64.round (inject_Z 3 - 1)) with (2 # 1)%Q.
  change (Qeq_bool (2 # 1) 0) with false. cbv iota.
  assert (Hn : (Binary64.round (inject_Z (Z.of_nat N)) == inject_Z (Z.of_nat N))%Q)
    by (apply round_Z; lia).
  assert (Hp : (Binary64.round (inject_Z (Z.of_nat N)) * (2 # 1)
                == inject_Z (2 * Z.of_nat N))%Q).
  { rewrite Hn, inject_Z_mult. change (inject_Z 2) with (2 # 1)%Q. ring. }
  rewrite (round_comp _ _ Hp).
  assert (Hp2 : (Binary64.round (inject_Z (2 * Z.of_nat N)) == inject_Z (2 * Z.of_nat N))%Q)
    by (apply round_Z; lia).
  assert (Hq : (Binary64.round (inject_Z (2 * Z.of_nat N)) / (2 # 1)
                == inject_Z (Z.of_nat N))%Q).
  { rewrite Hp2, inject_Z_mult. change (inject_Z 2) with (2 # 1)%Q. field. }
  rewrite (round_comp _ _ Hq).
  f_equal. rewrite round_Z by lia. apply Qfloor_Z.
Qed.

(** For a scale factor above 1 and N occurrences: the odd fold factor is
    2*floor(c/2)+1 for the ceiling c of the scale factor, the least odd
    integer that is at least c; the count of gates to fold lies between
    0 and N; and the selection returns exactly that many indices,
    pairwise different, all below N. *)
Lemma folding_selection (scale_factor : Q) (N : nat) (g : BitGenerator) :
  (1 < Binary64.round scale_factor)%Q → (scale_factor <= inject_Z (2 ^ 50))%Q →
  (Z.of_nat N ≤ 2 ^ 50)%Z →
  let odd_fold_factor := _next_odd_if_not_odd scale_factor in
  let ceiling := Qceiling (Binary64.round scale_factor) in
  odd_fold_factor = (2 * (ceiling / 2) + 1)%Z ∧
  Z.odd odd_fold_factor = true ∧
  (ceiling ≤ odd_fold_factor)%Z ∧
  (∀ m, Z.odd m = true → (ceiling ≤ m)%Z → (odd_fold_factor ≤ m)%Z) ∧
  ∃ num_to_fold idxs g',
    num_2q_gates_to_be_folded N scale_factor odd_fold_factor = Ok num_to_fold ∧
    (0 ≤ num_to_fold ≤ Z.of_nat N)%Z ∧
    _get_2q_gate_indices_to_be_folded N scale_factor odd_fold_factor g = Ok (idxs, g') ∧
    length idxs = Z.to_nat num_to_fold ∧
    NoDup idxs ∧
    ∀ i, i ∈ idxs → i < N.
Proof.
  intros Hr Hb HN odd_fold_factor ceiling. pose proof (round_gt_1 _ Hr) as Hsf.
  assert (H0 : (0 <= scale_factor)%Q) by lra.
  destruct (num_to_fold_ok N scale_factor Hr Hb HN) as (num_to_fold & Hnum & Hbounds).
  fold odd_fold_factor in Hnum.
  split; [by apply next_odd_formula |].
  split; [by apply next_odd_is_odd |].
  split; [by apply next_odd_ge |].
  split; [intros m; by apply next_odd_least |].
  destruct (choice_spec N num_to_fold g Hbounds) as (idxs & g' & Hc & _ & Hlen & Hnd & Hlt).
  exists num_to_fold, idxs, g'. unfold _get_2q_gate_indices_to_be_folded.
  rewrite Hnum. cbn [mbind result_bind].
  split; [reflexivity |]. split; [exact Hbounds |]. auto.
Qed.

Example folding_selection_example :
  ∃ num_to_fold idxs g',
    num_2q_gates_to_be_folded 90 (12 # 5) (_next_odd_if_not_odd (12 # 5)) = Ok num_to_fold ∧
    (0 ≤ num_to_fold ≤ Z.of_nat 90)%Z ∧
    _get_2q_gate_indices_to_be_folded 90 (12 # 5) (_next_odd_if_not_odd (12 # 5))
                                      example_generator = Ok (idxs, g') ∧
    length idxs = Z.to_nat num_to_fold ∧ NoDup idxs ∧ ∀ i, i ∈ idxs → i < 90.
Proof.
  assert (H1 : (1 < Binary64.round (12 # 5))%Q) by reflexivity.
  assert (H2 : (12 # 5 <= inject_Z (2 ^ 50))%Q) by discriminate.
  assert (H3 : (Z.of_nat 90 ≤ 2 ^ 50)%Z) by discriminate.
  exact (proj2 (proj2 (proj2 (proj2
           (folding_selection (12 # 5) 90 example_generator H1 H2 H3))))).
Qed.

(** * Properties of the circuit graph operations *)

Section Graph.

Implicit Types (n m cur : DAGOpNode) (nodes rest : list DAGOpNode)
               (seen : list nat) (namelist : list string).

Lemma NoDup_fmap_inj_on {A B} (f : A → B) (l : list A) (x y : A) :
  NoDup (f <$> l) → x ∈ l → y ∈ l → f x = f y → x = y.
Proof.
  induction l as [| a l IH]; intros Hnd Hx Hy Hf.
  - by apply elem_of_nil in Hx.
  - rewrite fmap_cons in Hnd. apply NoDup_cons in Hnd as [Ha Hnd].
    apply elem_of_cons in Hx as [-> | Hx]; apply elem_of_cons in Hy as [-> | Hy].
    + reflexivity.
    + exfalso. apply Ha. rewrite Hf. by apply list_elem_of_fmap_2.
    + exfalso. apply Ha. rewrite <- Hf. by apply list_elem_of_fmap_2.
    + by apply IH.
Qed.

(** *** [count_ops] *)

Lemma count_ops_fold (gate : string) nodes (counts : gmap string nat) :
  foldl (fun c n => <[op n := S (default 0 (c !! op n))]> c) counts nodes !! gate =
  match filter (fun n => op n = gate) nodes with
  | [] => counts !! gate
  | occ => Some (default 0 (counts !! gate) + length occ)
  end.
Proof.
  revert counts. induction nodes as [| n nodes IH]; intros counts; [reflexivity |].
  cbn [foldl]. rewrite IH. rewrite filter_cons.
  destruct (decide (op n = gate)) as [<- | Hne].
  - rewrite lookup_insert_eq.
    destruct (filter _ nodes) as [| o occ]; simpl; f_equal; lia.
  - rewrite lookup_insert_ne by done. reflexivity.
Qed.

Lemma count_ops_lookup gate dag :
  count_ops dag !! gate =
  match occurrences gate dag with
  | [] => None
  | occ => Some (length occ)
  end.
Proof.
  unfold count_ops, occurrences. rewrite count_ops_fold, lookup_empty.
  destruct (filter _ _); reflexivity.
Qed.

(** *** [collect_runs] *)

Lemma name_in_true namelist n : name_in namelist n = true ↔ op n ∈ namelist.
Proof. unfold name_in. apply bool_decide_eq_true. Qed.

Lemma seen_in_false seen n : negb (seen_in seen n) = true ↔ node_id n ∉ seen.
Proof.
  unfold seen_in. rewrite negb_true_iff. apply bool_decide_eq_false.
Qed.

Lemma filter_sublist_mono {A} (P Q : A → Prop)
    `{∀ x, Decision (P x)} `{∀ x, Decision (Q x)} (l : list A) :
  (∀ x, P x → Q x) → filter P l `sublist_of` filter Q l.
Proof.
  intros HPQ. induction l as [| a l IH]; [constructor |].
  rewrite !filter_cons. destruct (decide (P a)) as [HP | HP].
  - rewrite decide_True by auto. by constructor.
  - destruct (decide (Q a)); [by constructor | exact IH].
Qed.

Lemma follow_run_sublist namelist seen cur rest :
  follow_run namelist seen cur rest
    `sublist_of` filter (fun n => op n ∈ namelist ∧ node_id n ∉ seen) rest.
Proof.
  revert seen cur. induction rest as [| m rest IH]; intros seen cur; [constructor |].
  cbn [follow_run]. rewrite filter_cons.
  destruct (touches cur m).
  - destruct (covers cur m && name_in namelist m && negb (seen_in seen m)) eqn:Hc.
    + apply andb_true_iff in Hc as [Hc Hs]. apply andb_true_iff in Hc as [_ Hn].
      apply name_in_true in Hn. apply seen_in_false in Hs.
      rewrite decide_True by done. constructor.
      etrans; [apply IH |]. apply filter_sublist_mono.
      intros x [? Hx]. split; [done |]. intros ?. apply Hx. by right.
    + apply sublist_nil_l.
  - case_decide; [constructor |]; apply IH.
Qed.

Lemma collect_runs_from_Permutation namelist seen nodes :
  NoDup (node_id <$> nodes) →
  concat (collect_runs_from namelist seen nodes)
    ≡ₚ filter (fun n => op n ∈ namelist ∧ node_id n ∉ seen) nodes.
Proof.
  revert seen. induction nodes as [| n rest IH]; intros seen Hnd; [reflexivity |].
  rewrite fmap_cons in Hnd. apply NoDup_cons in Hnd as [Hn Hnd].
  cbn [collect_runs_from]. rewrite filter_cons.
  destruct (name_in namelist n && negb (seen_in seen n)) eqn:Hc.
  - apply andb_true_iff in Hc as [Hname Hseen].
    apply name_in_true in Hname. apply seen_in_false in Hseen.
    rewrite decide_True by done.
    cbn [concat]. rewrite <- app_comm_cons. constructor.
    rewrite IH by done.
    pose proof (follow_run_sublist namelist (node_id n :: seen) n rest) as Hsub.
    set (F := follow_run namelist (node_id n :: seen) n rest) in *.
    assert (HndR : NoDup rest) by (by eapply NoDup_fmap_1).
    assert (HF : ∀ x, x ∈ F → x ∈ rest ∧ op x ∈ namelist ∧ node_id x ∉ seen).
    { intros x Hx. eapply elem_of_sublist in Hx; [| exact Hsub].
      apply list_elem_of_filter in Hx as [[? Hx] ?].
      split; [done |]. split; [done |]. intros ?. apply Hx. by right. }
    apply NoDup_Permutation.
    + apply NoDup_app. split; [| split].
      * eapply sublist_NoDup; [| exact Hsub]. by apply NoDup_filter.
      * intros x Hx Hx'. apply list_elem_of_filter in Hx' as [[_ Hx'] _].
        apply Hx'. apply elem_of_app. left. rewrite fmap_cons. right.
        by apply list_elem_of_fmap_2.
      * by apply NoDup_filter.
    + by apply NoDup_filter.
    + intros x. rewrite elem_of_app, !list_elem_of_filter. split.
      * intros [Hx | [[Hname' Hx] Hin]].
        -- destruct (HF x Hx) as (? & ? & ?). done.
        -- split; [| done]. split; [done |]. intros ?. apply Hx.
           apply elem_of_app. by right.
      * intros [[Hname' Hx] Hin].
        destruct (decide (node_id x ∈ node_id <$> F)) as [HinF | HninF].
        -- left. apply list_elem_of_fmap in HinF as (y & Hid & Hy).
           destruct (HF y Hy) as (Hyr & _).
           by rewrite (NoDup_fmap_inj_on node_id rest x y Hnd Hin Hyr Hid).
        -- right. split; [| done]. split; [done |].
           change (map node_id (n :: F)) with (node_id n :: (node_id <$> F)).
           rewrite <- app_comm_cons. intros Hbad.
           apply elem_of_cons in Hbad as [Hbad | Hbad].
           ++ apply Hn. rewrite <- Hbad. by apply list_elem_of_fmap_2.
           ++ apply elem_of_app in Hbad as [? | ?]; done.
  - rewrite decide_False; [by apply IH |].
    intros [Hname Hseen]. apply name_in_true in Hname. apply seen_in_false in Hseen.
    rewrite Hname, Hseen in Hc. discriminate.
Qed.

(** Iteration over a set meets every element, once. *)
Lemma iterate_set_Permutation {A} (n : nat) (table_order : list nat) (elements : list A) :
  length elements = n → iterate_set n table_order elements ≡ₚ elements.
Proof.
  revert table_order elements.
  induction n as [| n IH]; intros table_order elements Hlen.
  - by apply nil_length_inv in Hlen as ->.
  - cbn [iterate_set].
    assert (Hk : hd 0 table_order mod length elements < length elements)
      by (apply Nat.mod_upper_bound; lia).
    destruct (lookup_lt_is_Some_2 elements _ Hk) as [x Hx]. rewrite Hx.
    rewrite IH.
    + symmetry. by apply delete_Permutation.
    + rewrite length_delete by eauto. lia.
Qed.

Lemma set_iteration_Permutation {A} (table_order : list nat) (elements : list A) :
  set_iteration table_order elements ≡ₚ elements.
Proof. by apply iterate_set_Permutation. Qed.

Lemma concat_Permutation {A} (ls ks : list (list A)) :
  ls ≡ₚ ks → concat ls ≡ₚ concat ks.
Proof.
  induction 1 as [| l ls ks _ IH | l k ls | ls ks ms _ IH1 _ IH2]; cbn [concat].
  - reflexivity.
  - by rewrite IH.
  - rewrite !app_assoc. f_equiv. apply Permutation_app_comm.
  - by rewrite IH1.
Qed.

(** The passes meet every occurrence of the gate, once. *)
Lemma encounter_order_Permutation gate dag table_order :
  NoDup (node_id <$> op_nodes dag) →
  encounter_order gate dag table_order ≡ₚ occurrences gate dag.
Proof.
  intros Hnd. unfold encounter_order.
  rewrite (concat_Permutation _ _ (set_iteration_Permutation table_order _)).
  unfold collect_runs, occurrences.
  rewrite collect_runs_from_Permutation by done.
  apply NoDup_Permutation.
  - apply NoDup_filter. by eapply NoDup_fmap_1.
  - apply NoDup_filter. by eapply NoDup_fmap_1.
  - intros x. rewrite !list_elem_of_filter, list_elem_of_singleton.
    split; [intros [[? _] ?]; done | intros [? ?]].
    split; [| done]. split; [done |]. apply not_elem_of_nil.
Qed.

Lemma collect_runs_from_no_occurrence namelist seen nodes :
  Forall (fun n => op n ∉ namelist) nodes →
  collect_runs_from namelist seen nodes = [].
Proof.
  induction 1 as [| n rest Hn _ IH]; [reflexivity |].
  cbn [collect_runs_from]. unfold name_in at 1.
  rewrite bool_decide_false by done. exact IH.
Qed.

Lemma collect_runs_no_occurrence gate dag :
  occurrences gate dag = [] → collect_runs dag [gate] = [].
Proof.
  intros Hocc. apply collect_runs_from_no_occurrence.
  apply Forall_forall. intros n Hn Hin. apply list_elem_of_singleton in Hin.
  assert (n ∈ occurrences gate dag) as Hc
    by (apply list_elem_of_filter; done).
  rewrite Hocc in Hc. by apply elem_of_nil in Hc.
Qed.

End Graph.

(** * Substitution of a list of nodes *)

Section Substitution.

Implicit Types (n v : DAGOpNode) (nodes pre post : list DAGOpNode)
               (dag d : DAGCircuit) (plan : list (DAGOpNode * DAGCircuit)).

Lemma flat_map_ext_in {A B} (f g : A → list B) (l : list A) :
  (∀ x, x ∈ l → f x = g x) → flat_map f l = flat_map g l.
Proof.
  induction l as [| a l IH]; intros H; [reflexivity |].
  cbn [flat_map]. rewrite (H a) by apply list_elem_of_here.
  rewrite IH; [reflexivity |]. intros x Hx. apply H. by apply list_elem_of_further.
Qed.

Lemma flat_map_singleton {A B} (f : A → B) (l : list A) :
  flat_map (fun x => [f x]) l = f <$> l.
Proof. induction l as [| a l IH]; [reflexivity |]. cbn. by rewrite IH. Qed.

Lemma for_each_concat {A S} (body : S → A → result S) (s : S) (ls : list (list A)) :
  for_each (fun s l => for_each body s l) s ls = for_each body s (concat ls).
Proof.
  revert s. induction ls as [| l ls IH]; intros s; [reflexivity |].
  cbn [for_each concat].
  assert (Happ : ∀ l1 l2 s, for_each body s (l1 ++ l2)
                            = (s' ← for_each body s l1; for_each body s' l2)).
  { clear. induction l1 as [| a l1 IH1]; intros l2 s; [reflexivity |].
    cbn [for_each app]. destruct (body s a) as [s' | e]; cbn; [apply IH1 | reflexivity]. }
  rewrite Happ. destruct (for_each body s l) as [s' | e]; cbn; [apply IH | reflexivity].
Qed.

(** *** The copies of the nodes of the graph put in *)

Lemma copy_nodes_ids v first input :
  node_id <$> copy_nodes v first input = seq first (length input).
Proof.
  unfold copy_nodes. rewrite fmap_imap.
  rewrite (imap_ext _ (fun k _ => first + k)) by done.
  rewrite (imap_seq input (fun k => k) first). apply list_fmap_id.
Qed.

Lemma copy_nodes_gates v first d :
  gate_of <$> copy_nodes v first (op_nodes d) = expansion v d.
Proof.
  unfold copy_nodes, expansion. rewrite fmap_imap.
  rewrite (imap_ext _ (const (fun n => (op n, map (map_wire v) (qargs n))))) by done.
  apply imap_const.
Qed.

Lemma copy_nodes_length v first input :
  length (copy_nodes v first input) = length input.
Proof. apply length_imap. Qed.

(** *** One substitution *)

Lemma splice_split id new pre x post :
  node_id x = id → Forall (fun y => node_id y ≠ id) pre →
  splice id new (pre ++ x :: post) = Some (pre ++ new ++ post).
Proof.
  intros Hx. induction 1 as [| y pre Hy _ IH]; cbn [splice app].
  - rewrite decide_True by done. reflexivity.
  - rewrite decide_False by done. rewrite IH. reflexivity.
Qed.

Lemma wf_dag_split dag v :
  wf_dag dag → v ∈ op_nodes dag →
  ∃ pre post,
    op_nodes dag = pre ++ v :: post ∧
    Forall (fun y => node_id y ≠ node_id v) pre ∧
    Forall (fun y => node_id y ≠ node_id v) post.
Proof.
  intros [Hnd _] Hv. apply list_elem_of_split in Hv as (pre & post & Heq).
  exists pre, post. split; [exact Heq |].
  rewrite Heq, fmap_app, fmap_cons in Hnd.
  apply NoDup_app in Hnd as (_ & Hpre & Hpost).
  apply NoDup_cons in Hpost as [Hpost _].
  split; apply Forall_forall; intros y Hy Hid.
  - apply (Hpre (node_id y)); [by apply list_elem_of_fmap_2 |].
    rewrite Hid. apply list_elem_of_here.
  - apply Hpost. rewrite <- Hid. by apply list_elem_of_fmap_2.
Qed.

Lemma substitute_node_spec dag v d :
  wf_dag dag → v ∈ op_nodes dag → length (qargs v) = num_qubits d →
  ∃ pre post,
    op_nodes dag = pre ++ v :: post ∧
    Forall (fun y => node_id y ≠ node_id v) pre ∧
    Forall (fun y => node_id y ≠ node_id v) post ∧
    let dag' :=
      mkDAGCircuit (num_qubits dag)
        (pre ++ copy_nodes v (next_node_id dag) (op_nodes d) ++ post)
        (next_node_id dag + length (op_nodes d))
        (mod_2pi (global_phase dag + global_phase d)) in
    substitute_node_with_dag dag v d = Ok dag' ∧ wf_dag dag'.
Proof.
  intros Hwf Hv Hlen.
  destruct (wf_dag_split dag v Hwf Hv) as (pre & post & Heq & Hpre & Hpost).
  exists pre, post. split; [exact Heq |]. split; [exact Hpre |]. split; [exact Hpost |].
  cbn zeta. split.
  - unfold substitute_node_with_dag. rewrite decide_True by done.
    rewrite Heq, splice_split by done. rewrite copy_nodes_length. reflexivity.
  - destruct Hwf as [Hnd Hlt]. rewrite Heq in Hnd, Hlt.
    rewrite fmap_app, fmap_cons in Hnd.
    apply NoDup_app in Hnd as (Hnd1 & Hdisj & Hnd2).
    apply NoDup_cons in Hnd2 as [_ Hnd2].
    apply Forall_app in Hlt as [Hlt1 Hlt2]. apply Forall_cons in Hlt2 as [_ Hlt2].
    rewrite Forall_forall in Hlt1, Hlt2.
    split; cbn [op_nodes next_node_id].
    + change map with (@fmap list _). rewrite !fmap_app, copy_nodes_ids.
      apply NoDup_app. split; [exact Hnd1 |]. split.
      * intros i Hi Hi'. apply elem_of_app in Hi' as [Hi' | Hi'].
        -- apply elem_of_seq in Hi'.
           apply list_elem_of_fmap in Hi as (y & -> & Hy).
           specialize (Hlt1 y Hy). lia.
        -- apply (Hdisj i Hi). by right.
      * apply NoDup_app. split; [apply NoDup_seq |]. split; [| exact Hnd2].
        intros i Hi Hi'. apply elem_of_seq in Hi.
        apply list_elem_of_fmap in Hi' as (y & -> & Hy).
        specialize (Hlt2 y Hy). lia.
    + rewrite !Forall_app. split; [| split]; apply Forall_forall; intros y Hy.
      * specialize (Hlt1 y Hy). lia.
      * assert (Hid : node_id y ∈ node_id <$> copy_nodes v (next_node_id dag) (op_nodes d))
          by (by apply list_elem_of_fmap_2).
        rewrite copy_nodes_ids in Hid. apply elem_of_seq in Hid. lia.
      * specialize (Hlt2 y Hy). lia.
Qed.

(** *** A list of substitutions *)

Lemma substituted_None plan n :
  node_id n ∉ (fun vd => node_id vd.1) <$> plan → substituted plan n = None.
Proof.
  induction plan as [| [v d] plan IH]; intros Hn; [reflexivity |].
  cbn [substituted]. rewrite fmap_cons in Hn. cbn [fst] in Hn.
  rewrite decide_False.
  - apply IH. intros ?. apply Hn. by right.
  - intros Heq. apply Hn. rewrite Heq. apply list_elem_of_here.
Qed.

Lemma substitute_all_spec plan dag :
  wf_dag dag →
  NoDup ((fun vd => node_id vd.1) <$> plan) →
  Forall (fun vd => vd.1 ∈ op_nodes dag ∧ length (qargs vd.1) = num_qubits vd.2) plan →
  ∃ dag',
    substitute_all plan dag = Ok dag' ∧
    wf_dag dag' ∧
    num_qubits dag' = num_qubits dag ∧
    gate_of <$> op_nodes dag' = flat_map (rewritten plan) (op_nodes dag) ∧
    global_phase dag' =
      foldl (fun gp vd => mod_2pi (gp + global_phase vd.2)) (global_phase dag) plan.
Proof.
  revert dag. induction plan as [| [v d] plan IH]; intros dag Hwf Hnd Hall.
  - exists dag. split; [reflexivity |]. split; [exact Hwf |]. split; [reflexivity |].
    split; [| reflexivity].
    unfold rewritten. cbn [substituted]. by rewrite flat_map_singleton.
  - rewrite fmap_cons in Hnd. cbn [fst] in Hnd. apply NoDup_cons in Hnd as [Hv Hnd].
    apply Forall_cons in Hall as [[Hin Hlen] Hall]. cbn [fst snd] in Hin, Hlen.
    destruct (substitute_node_spec dag v d Hwf Hin Hlen)
      as (pre & post & Heq & Hpre & Hpost & Hsub & Hwf1).
    set (new := copy_nodes v (next_node_id dag) (op_nodes d)) in *.
    set (dag1 := mkDAGCircuit _ _ _ _) in Hsub, Hwf1.
    assert (Hold : ∀ vd, vd ∈ plan → vd.1 ∈ pre ++ post ∧ node_id vd.1 < next_node_id dag).
    { intros vd Hvd. rewrite Forall_forall in Hall.
      destruct (Hall vd Hvd) as [Hvd_in _].
      assert (Hne : node_id vd.1 ≠ node_id v).
      { intros Hid. apply Hv. rewrite <- Hid.
        by apply (list_elem_of_fmap_2 (fun vd => node_id vd.1)). }
      destruct Hwf as [_ Hlt]. rewrite Forall_forall in Hlt.
      split; [| by apply Hlt].
      rewrite Heq in Hvd_in. apply elem_of_app in Hvd_in as [? | Hvd_in].
      - apply elem_of_app. by left.
      - apply elem_of_cons in Hvd_in as [Hvd_eq | ?].
        + by rewrite Hvd_eq in Hne.
        + apply elem_of_app. by right. }
    destruct (IH dag1 Hwf1 Hnd) as (dag' & Hrun & Hwf' & Hq & Hgates & Hphase).
    { apply Forall_forall. intros vd Hvd. rewrite Forall_forall in Hall.
      destruct (Hall vd Hvd) as [_ Hl]. split; [| exact Hl].
      destruct (Hold vd Hvd) as [Hin' _]. cbn [dag1 op_nodes].
      apply elem_of_app in Hin' as [? | ?]; rewrite !elem_of_app; auto. }
    exists dag'. split.
    { unfold substitute_all. cbn [for_each fst snd]. rewrite Hsub. exact Hrun. }
    split; [exact Hwf' |]. split; [exact Hq |]. split; [| exact Hphase].
    rewrite Hgates, Heq. cbn [dag1 op_nodes].
    rewrite !flat_map_app. cbn [flat_map].
    assert (Hkeep : ∀ l, Forall (fun y => node_id y ≠ node_id v) l →
              flat_map (rewritten plan) l = flat_map (rewritten ((v, d) :: plan)) l).
    { intros l Hl. apply flat_map_ext_in. intros x Hx.
      rewrite Forall_forall in Hl. specialize (Hl x Hx).
      unfold rewritten. cbn [substituted]. by rewrite decide_False. }
    rewrite (Hkeep pre Hpre), (Hkeep post Hpost). f_equal. f_equal.
    unfold rewritten at 2. cbn [substituted]. rewrite decide_True by done.
    rewrite <- (copy_nodes_gates v (next_node_id dag) d). fold new.
    rewrite <- flat_map_singleton. apply flat_map_ext_in.
    intros x Hx. unfold rewritten. rewrite substituted_None; [reflexivity |].
    intros Hbad. apply list_elem_of_fmap in Hbad as (vd & Hid & Hvd).
    destruct (Hold vd Hvd) as [_ Hlt].
    assert (Hxid : node_id x ∈ node_id <$> new) by (by apply list_elem_of_fmap_2).
    unfold new in Hxid. rewrite copy_nodes_ids in Hxid. apply elem_of_seq in Hxid. lia.
Qed.

End Substitution.

(** * The loops of the passes as lists of substitutions *)

Section Loops.

Implicit Types (n v : DAGOpNode) (visits : list DAGOpNode)
               (dag : DAGCircuit) (g : BitGenerator).

Lemma substituted_imap (f : nat → DAGOpNode → DAGCircuit) visits n :
  substituted (imap (fun k v => (v, f k v)) visits) n =
  match encounter_index visits n with
  | Some k => f k <$> visits !! k
  | None => None
  end.
Proof.
  revert f. induction visits as [| v visits IH]; intros f; [reflexivity |].
  rewrite imap_cons. cbn [substituted encounter_index].
  destruct (decide (node_id v = node_id n)); [reflexivity |].
  change (imap ((fun k v0 => (v0, f k v0)) ∘ S) visits)
    with (imap (fun k v0 => (v0, f (S k) v0)) visits).
  rewrite IH. destruct (encounter_index visits n); reflexivity.
Qed.

Lemma encounter_index_lookup visits n k :
  encounter_index visits n = Some k →
  ∃ v, visits !! k = Some v ∧ node_id v = node_id n.
Proof.
  revert k. induction visits as [| v visits IH]; intros k; [discriminate |].
  cbn [encounter_index]. destruct (decide (node_id v = node_id n)) as [Heq | Hne].
  - intros [= <-]. by exists v.
  - destruct (encounter_index visits n) as [k' |]; [| discriminate].
    intros [= <-]. apply (IH k' eq_refl).
Qed.

Lemma encounter_index_None visits n :
  encounter_index visits n = None ↔ node_id n ∉ node_id <$> visits.
Proof.
  induction visits as [| v visits IH]; cbn [encounter_index].
  - split; [intros _; apply not_elem_of_nil | done].
  - rewrite fmap_cons, not_elem_of_cons.
    destruct (decide (node_id v = node_id n)) as [Heq | Hne].
    + split; [discriminate | intros [? _]; congruence].
    + destruct (encounter_index visits n) eqn:He; cbn.
      * split; [discriminate |]. intros [_ Hn]. by apply IH in Hn.
      * split; [| done]. intros _. split; [congruence |]. by apply IH.
Qed.

(** In a graph, a node is met at the rank of its identity. *)
Lemma encounter_index_self (nodes : list DAGOpNode) visits n k :
  NoDup (node_id <$> nodes) → visits ⊆ nodes → n ∈ nodes →
  encounter_index visits n = Some k → visits !! k = Some n ∧ k < length visits.
Proof.
  intros Hnd Hsub Hn Hk.
  destruct (encounter_index_lookup visits n k Hk) as (v & Hv & Hid).
  assert (v ∈ nodes) by (apply Hsub; by eapply list_elem_of_lookup_2).
  rewrite <- (NoDup_fmap_inj_on node_id nodes v n Hnd) by done.
  split; [exact Hv | by eapply lookup_lt_Some].
Qed.

Lemma rewritten_imap (nodes : list DAGOpNode) (f : nat → DAGOpNode → DAGCircuit) visits n :
  NoDup (node_id <$> nodes) → visits ⊆ nodes → n ∈ nodes →
  rewritten (imap (fun k v => (v, f k v)) visits) n =
  match encounter_index visits n with
  | Some k => expansion n (f k n)
  | None => [gate_of n]
  end.
Proof.
  intros Hnd Hsub Hn. unfold rewritten. rewrite substituted_imap.
  destruct (encounter_index visits n) as [k |] eqn:Hk; [| reflexivity].
  destruct (encounter_index_self nodes visits n k Hnd Hsub Hn Hk) as [-> _].
  reflexivity.
Qed.

Lemma imap_plan_ids (f : nat → DAGOpNode → DAGCircuit) visits :
  (fun vd : DAGOpNode * DAGCircuit => node_id vd.1) <$> imap (fun k v => (v, f k v)) visits
  = node_id <$> visits.
Proof.
  rewrite fmap_imap.
  rewrite (imap_ext _ (const node_id)) by done. apply imap_const.
Qed.

Lemma imap_plan_Forall (P : DAGOpNode * DAGCircuit → Prop)
    (f : nat → DAGOpNode → DAGCircuit) visits :
  (∀ k v, visits !! k = Some v → P (v, f k v)) →
  Forall P (imap (fun k v => (v, f k v)) visits).
Proof.
  intros H. apply Forall_forall. intros vd Hvd.
  apply elem_of_lookup_imap_1 in Hvd as (k & v & -> & Hv). by apply H.
Qed.

(** *** The twirling loop *)

Lemma twirl_dag_facts (entry : TwirlSet) v control target :
  qargs v = [control; target] →
  num_qubits (twirl_dag entry v) = 2 ∧
  expansion v (twirl_dag entry v) = five_gate_sequence entry v ∧
  global_phase (twirl_dag entry v) = mod_2pi (0 + phase_angle entry.2).
Proof.
  intros Hq. destruct entry as [[[[g0 g1] g2] g3] ph].
  split; [reflexivity |]. split; [| reflexivity].
  unfold expansion, five_gate_sequence, map_wire. rewrite Hq. reflexivity.
Qed.

Lemma twirling_body_ok (set : list TwirlSet) (len : nat) dag g (log : list Substitution) v :
  len = length set → 0 < len →
  twirling_body set len (dag, g, log) v =
  dag1 ← substitute_node_with_dag dag v (twirl_dag (set !!! draw g len 0) v);
  mret (dag1, advance g 1,
        log ++ [(v, draw g len 0, twirl_dag (set !!! draw g len 0) v)]).
Proof.
  intros Hlen Hpos. unfold twirling_body.
  rewrite (integers_ok 0 len g Hpos). cbn [mbind result_bind].
  rewrite Nat.sub_0_r, Nat.add_0_l.
  assert (Hd0 : stream g (position g) mod len = draw g len 0)
    by (unfold draw; by rewrite Nat.add_0_r).
  rewrite Hd0.
  assert (Hlt : draw g len 0 < length set).
  { rewrite <- Hlen. unfold draw. apply Nat.mod_upper_bound. lia. }
  destruct (lookup_lt_is_Some_2 set _ Hlt) as [entry Hentry].
  rewrite Hentry, (list_lookup_total_correct _ _ _ Hentry).
  unfold advance. by rewrite Nat.add_1_r.
Qed.

Lemma twirl_log_cons (set : list TwirlSet) (len : nat) g v visits :
  twirl_log set len g (v :: visits) =
  (v, draw g len 0, twirl_dag (set !!! draw g len 0) v)
    :: twirl_log set len (advance g 1) visits.
Proof.
  unfold twirl_log. rewrite imap_cons. f_equal.
  apply imap_ext. intros k x _. unfold compose, draw, advance. cbn [stream position].
  by replace (position g + 1 + k) with (position g + S k) by lia.
Qed.

Lemma advance_advance g a b : advance (advance g a) b = advance g (a + b).
Proof. unfold advance. cbn [stream position]. f_equal. lia. Qed.

Lemma twirling_loop (set : list TwirlSet) (len : nat) visits :
  len = length set → 0 < len →
  ∀ dag g (log : list Substitution),
    for_each (twirling_body set len) (dag, g, log) visits =
    dag' ← substitute_all ((fun s : Substitution => (s.1.1, s.2)) <$> twirl_log set len g visits) dag;
    mret (dag', advance g (length visits), log ++ twirl_log set len g visits).
Proof.
  intros Hlen Hpos. induction visits as [| v visits IH]; intros dag g log.
  - cbn. rewrite app_nil_r. unfold advance. rewrite Nat.add_0_r.
    by destruct g.
  - cbn [for_each]. rewrite twirling_body_ok by done.
    rewrite twirl_log_cons, fmap_cons. unfold substitute_all. cbn [for_each fst snd].
    destruct (substitute_node_with_dag dag v _) as [dag1 | e]; [| reflexivity].
    cbn [mbind result_bind mret result_ret]. rewrite IH.
    fold (substitute_all ((fun s : Substitution => (s.1.1, s.2)) <$>
            twirl_log set len (advance g 1) visits) dag1).
    destruct (substitute_all _ dag1) as [dag' | e]; [| reflexivity].
    cbn [mbind result_bind mret result_ret]. rewrite <- app_assoc. cbn [app length].
    by rewrite advance_advance.
Qed.

Lemma twirl_log_plan (set : list TwirlSet) (len : nat) g visits :
  (fun s : Substitution => (s.1.1, s.2)) <$> twirl_log set len g visits =
  imap (fun k v => (v, twirl_dag (set !!! draw g len k) v)) visits.
Proof. unfold twirl_log. rewrite fmap_imap. by apply imap_ext. Qed.

(** *** The global phase *)

Lemma mod_2pi_congruent (angle : R) :
  ∃ k : Z, mod_2pi angle = (angle + 2 * PI * IZR k)%R.
Proof.
  exists (- Int_part (angle / (2 * PI)))%Z. unfold mod_2pi. rewrite opp_IZR. ring.
Qed.

Lemma accumulate_phase_congruent (angles : list R) (phase : R) :
  ∃ k : Z, accumulate_phase phase angles = (phase + sum_angles angles + 2 * PI * IZR k)%R.
Proof.
  revert phase. induction angles as [| a angles IH]; intros phase.
  - exists 0%Z. cbn. ring.
  - cbn [accumulate_phase foldl sum_angles foldr].
    destruct (IH (mod_2pi (phase + mod_2pi (0 + a)))) as [k Hk].
    fold (accumulate_phase (mod_2pi (phase + mod_2pi (0 + a))) angles) .
    fold (sum_angles angles).
    destruct (mod_2pi_congruent (0 + a)) as [k1 Hk1].
    destruct (mod_2pi_congruent (phase + mod_2pi (0 + a))) as [k2 Hk2].
    exists (k + k1 + k2)%Z. rewrite Hk, Hk2, Hk1, !plus_IZR. ring.
Qed.

Lemma fold_phase_imap (f : nat → DAGOpNode → DAGCircuit) (angle : nat → R) visits (phase : R) :
  (∀ k v, visits !! k = Some v → global_phase (f k v) = mod_2pi (0 + angle k)) →
  foldl (fun gp (vd : DAGOpNode * DAGCircuit) => mod_2pi (gp + global_phase vd.2)) phase
        (imap (fun k v => (v, f k v)) visits) =
  accumulate_phase phase (angle <$> seq 0 (length visits)).
Proof.
  revert f angle phase. induction visits as [| v visits IH]; intros f angle phase H;
    [reflexivity |].
  rewrite imap_cons. cbn [length seq fmap list_fmap foldl accumulate_phase snd].
  rewrite (H 0 v eq_refl).
  change (imap ((fun k v0 => (v0, f k v0)) ∘ S) visits)
    with (imap (fun k v0 => (v0, f (S k) v0)) visits).
  rewrite (IH (fun k => f (S k)) (fun k => angle (S k))).
  - unfold accumulate_phase. f_equal. rewrite <- fmap_S_seq, <- list_fmap_compose.
    reflexivity.
  - intros k x Hk. by apply (H (S k)).
Qed.

End Loops.

(** * The twirling pass *)

Section Twirling.

Implicit Types (self : PauliTwirling) (dag : DAGCircuit) (n v : DAGOpNode).

Lemma generate_length name sets :
  generate_pauli_twirling_sets name = Ok sets → length sets = 16.
Proof.
  destruct (decide (name = "cx")) as [-> | Hcx].
  { rewrite generate_cx. by intros [= <-]. }
  destruct (decide (name = "cz")) as [-> | Hcz].
  { rewrite generate_cz. by intros [= <-]. }
  destruct (decide (name = "ecr")) as [-> | Hecr].
  { rewrite generate_ecr. by intros [= <-]. }
  unfold generate_pauli_twirling_sets, two_qubit_gates.
  rewrite !lookup_insert_ne, lookup_singleton_ne by done. discriminate.
Qed.

Lemma constructed_len self :
  constructed self → twirling_len self = length (twirling_set self) ∧ 0 < twirling_len self.
Proof.
  intros [Hgen Hlen]. split; [exact Hlen |].
  rewrite Hlen, (generate_length _ _ Hgen). lia.
Qed.

Lemma twirl_dag_phase (entry : TwirlSet) v :
  global_phase (twirl_dag entry v) = mod_2pi (0 + phase_angle entry.2).
Proof. by destruct entry as [[[[g0 g1] g2] g3] ph]. Qed.

Lemma twirl_dag_qubits (entry : TwirlSet) v : num_qubits (twirl_dag entry v) = 2.
Proof. by destruct entry as [[[[g0 g1] g2] g3] ph]. Qed.

Lemma two_qargs v : length (qargs v) = 2 → ∃ control target, qargs v = [control; target].
Proof.
  destruct (qargs v) as [| c [| t [| ? ?]]]; try discriminate. intros _. by exists c, t.
Qed.

(** The nodes met are nodes of the graph, with different identities,
    and they are the occurrences of the gate. *)
Lemma encounter_order_facts gate dag table_order :
  wf_dag dag →
  let visits := encounter_order gate dag table_order in
  visits ≡ₚ occurrences gate dag ∧
  length visits = length (occurrences gate dag) ∧
  NoDup (node_id <$> visits) ∧
  visits ⊆ op_nodes dag ∧
  (∀ v, v ∈ visits → op v = gate) ∧
  (∀ n, n ∈ occurrences gate dag →
     ∃ k, encounter_index visits n = Some k ∧ k < length (occurrences gate dag)) ∧
  (∀ n, n ∈ op_nodes dag → op n ≠ gate → encounter_index visits n = None).
Proof.
  intros [Hnd _] visits.
  pose proof (encounter_order_Permutation gate dag table_order Hnd) as Hperm.
  fold visits in Hperm.
  assert (Hin : ∀ v, v ∈ visits → v ∈ op_nodes dag ∧ op v = gate).
  { intros v Hv. rewrite Hperm in Hv. by apply list_elem_of_filter in Hv as [? ?]. }
  assert (Hlen : length visits = length (occurrences gate dag)) by (by rewrite Hperm).
  split; [exact Hperm |]. split; [exact Hlen |].
  split; [| split; [| split; [| split]]].
  - rewrite Hperm. unfold occurrences.
    eapply sublist_NoDup; [exact Hnd |]. apply fmap_sublist, sublist_filter.
  - intros v Hv. by apply Hin.
  - intros v Hv. by apply Hin.
  - intros n Hn. rewrite <- Hperm in Hn.
    destruct (encounter_index visits n) as [k |] eqn:Hk.
    + exists k. split; [reflexivity |].
      destruct (encounter_index_lookup visits n k Hk) as (v & Hv & _).
      rewrite <- Hlen. by eapply lookup_lt_Some.
    + apply encounter_index_None in Hk. exfalso. apply Hk.
      by apply list_elem_of_fmap_2.
  - intros n Hn Hop. apply encounter_index_None. intros Hid.
    apply list_elem_of_fmap in Hid as (v & Hid & Hv).
    destruct (Hin v Hv) as [Hvn Hvop].
    apply Hop. rewrite <- Hvop. f_equal.
    symmetry. by apply (NoDup_fmap_inj_on node_id (op_nodes dag)).
Qed.

End Twirling.

(** What a run of the twirling pass returns. *)
Lemma twirling_run_result (self : PauliTwirling) (dag : DAGCircuit) (table_order : list nat) :
  constructed self → wf_dag dag → two_qubit_occurrences (twirling_gate self) dag →
  let gate := twirling_gate self in
  let set := twirling_set self in
  let N := twirling_len self in
  let visits := encounter_order gate dag table_order in
  let count := length (occurrences gate dag) in
  ∃ dag',
    PauliTwirling_run_log self dag table_order =
      Ok (dag', mkPauliTwirling gate set N (advance (rng self) count),
          twirl_log set N (rng self) visits) ∧
    gate_of <$> op_nodes dag' = flat_map (twirled set N (rng self) visits) (op_nodes dag) ∧
    global_phase dag' =
      accumulate_phase (global_phase dag) (drawn_phases set N (rng self) count).
Proof.
  intros Hcons Hwf H2q gate set N visits count.
  destruct (constructed_len self Hcons) as [HN Hpos]. fold N set in HN, Hpos.
  destruct (encounter_order_facts gate dag table_order Hwf)
    as (Hperm & Hlen & Hnd & Hsub & Hop & _ & _).
  fold visits count in Hperm, Hlen, Hnd, Hsub, Hop.
  assert (Hqargs : ∀ v, v ∈ visits → length (qargs v) = 2).
  { intros v Hv. unfold two_qubit_occurrences in H2q. rewrite Forall_forall in H2q.
    apply H2q; [by apply Hsub | by apply Hop]. }
  destruct (substitute_all_spec
              (imap (fun k v => (v, twirl_dag (set !!! draw (rng self) N k) v)) visits) dag Hwf)
    as (dag' & Hrun & _ & _ & Hgates & Hphase).
  { by rewrite imap_plan_ids. }
  { apply imap_plan_Forall. intros k v Hv. cbn [fst snd].
    assert (v ∈ visits) by (by eapply list_elem_of_lookup_2).
    split; [by apply Hsub |]. rewrite twirl_dag_qubits. by apply Hqargs. }
  exists dag'. split; [| split].
  - unfold PauliTwirling_run_log. rewrite for_each_concat.
    fold gate set N.
    change (concat (set_iteration table_order (collect_runs dag [gate]))) with visits.
    rewrite (twirling_loop set N visits HN Hpos), twirl_log_plan, Hrun.
    cbn. by rewrite Hlen.
  - rewrite Hgates. apply flat_map_ext_in. intros n Hn.
    destruct Hwf as [Hids _].
    rewrite (rewritten_imap (op_nodes dag)) by done. unfold twirled.
    destruct (encounter_index visits n) as [k |] eqn:Hk; [| reflexivity].
    destruct (encounter_index_self (op_nodes dag) visits n k Hids Hsub Hn Hk) as [Hv _].
    apply list_elem_of_lookup_2 in Hv.
    destruct (two_qargs n (Hqargs n Hv)) as (c & t & Hq).
    by destruct (twirl_dag_facts (set !!! draw (rng self) N k) n c t Hq) as (_ & -> & _).
  - rewrite Hphase. unfold drawn_phases. rewrite <- Hlen.
    apply (fold_phase_imap _ (fun k => phase_angle (set !!! draw (rng self) N k).2)).
    intros k v _. apply twirl_dag_phase.
Qed.

Lemma example_twirling_constructed : constructed example_twirling.
Proof. split; [exact generate_cx | reflexivity]. Defined.

Lemma example_dag_wf : wf_dag example_dag.
Proof. apply (bool_decide_unpack (wf_dag example_dag)). vm_compute. reflexivity. Defined.

Lemma example_dag_two_qubit : two_qubit_occurrences "cx" example_dag.
Proof.
  apply (bool_decide_unpack (two_qubit_occurrences "cx" example_dag)).
  vm_compute. reflexivity.
Defined.

(** C3. On every graph, [PauliTwirling.run] meets every occurrence of
    the twirling gate once, in whatever order the set of runs is
    iterated; for the [k]-th occurrence met it draws one index below N,
    the length of the twirling set, from the generator of the transform,
    and replaces the occurrence by the five-node sequence of the entry
    at that index: entry[0] on the control qubit, entry[1] on the target
    qubit, the original gate on (control, target), entry[2] on the
    control qubit, entry[3] on the target qubit.  The other nodes stay,
    the generator has advanced by one draw for each occurrence, and the
    phase of each entry is added to the global phase modulo 2*pi. *)
Theorem twirling_run_substitutes (self : PauliTwirling) (dag : DAGCircuit)
    (table_order : list nat) :
  constructed self → wf_dag dag → two_qubit_occurrences (twirling_gate self) dag →
  let gate := twirling_gate self in
  let set := twirling_set self in
  let N := twirling_len self in
  let visits := encounter_order gate dag table_order in
  let count := length (occurrences gate dag) in
  visits ≡ₚ occurrences gate dag ∧
  N = length set ∧
  (∀ k, draw (rng self) N k < N) ∧
  (∀ n, n ∈ occurrences gate dag →
     ∃ k, encounter_index visits n = Some k ∧ k < count) ∧
  (∀ n, n ∈ op_nodes dag → op n ≠ gate → twirled set N (rng self) visits n = [gate_of n]) ∧
  ∃ dag',
    PauliTwirling_run self dag table_order =
      Ok (dag', mkPauliTwirling gate set N (advance (rng self) count)) ∧
    PauliTwirling_run_log self dag table_order =
      Ok (dag', mkPauliTwirling gate set N (advance (rng self) count),
          twirl_log set N (rng self) visits) ∧
    gate_of <$> op_nodes dag' = flat_map (twirled set N (rng self) visits) (op_nodes dag) ∧
    global_phase dag' =
      accumulate_phase (global_phase dag) (drawn_phases set N (rng self) count) ∧
    ∃ k : Z,
      global_phase dag' =
        (global_phase dag + sum_angles (drawn_phases set N (rng self) count)
         + 2 * PI * IZR k)%R.
Proof.
  intros Hcons Hwf H2q gate set N visits count.
  destruct (constructed_len self Hcons) as [HN Hpos]. fold N set in HN, Hpos.
  destruct (encounter_order_facts gate dag table_order Hwf)
    as (Hperm & _ & _ & _ & _ & Hocc & Hother).
  fold visits count in Hperm, Hocc, Hother.
  split; [exact Hperm |]. split; [exact HN |].
  split; [intros k; apply Nat.mod_upper_bound; lia |].
  split; [exact Hocc |].
  split; [intros n Hn Hne; unfold twirled; by rewrite (Hother n Hn Hne) |].
  destruct (twirling_run_result self dag table_order Hcons Hwf H2q)
    as (dag' & Hlog & Hgates & Hphase).
  fold gate set N visits count in Hlog, Hgates, Hphase.
  exists dag'. split; [unfold PauliTwirling_run; by rewrite Hlog |].
  split; [exact Hlog |]. split; [exact Hgates |]. split; [exact Hphase |].
  rewrite Hphase. apply accumulate_phase_congruent.
Qed.

Lemma twirling_run_substitutes_witness :
  ∃ dag',
    PauliTwirling_run example_twirling example_dag [1; 0] =
      Ok (dag', mkPauliTwirling "cx" cx_twirling_sets 16 (advance example_generator 4)) ∧
    gate_of <$> op_nodes dag' =
      flat_map (twirled cx_twirling_sets 16 example_generator
                        (encounter_order "cx" example_dag [1; 0]))
               (op_nodes example_dag).
Proof.
  destruct (twirling_run_substitutes example_twirling example_dag [1; 0]
              example_twirling_constructed example_dag_wf example_dag_two_qubit)
    as (_ & _ & _ & _ & _ & dag' & Hrun & _ & Hgates & _).
  exists dag'. split; [exact Hrun | exact Hgates].
Defined.

(** * The folding pass *)

Section Folding.

Implicit Types (self : Local2qFolding) (dag : DAGCircuit) (n v : DAGOpNode)
               (g : BitGenerator) (visits : list DAGOpNode).

Lemma fold_dag_nodes (k : nat) (o : string) :
  num_qubits (Nat.iter k (fun d => apply_operation_back d o [0; 1]) (empty_dag 2)) = 2 ∧
  global_phase (Nat.iter k (fun d => apply_operation_back d o [0; 1]) (empty_dag 2)) = 0%R ∧
  (fun n => (op n, qargs n))
    <$> op_nodes (Nat.iter k (fun d => apply_operation_back d o [0; 1]) (empty_dag 2))
  = replicate k (o, [0; 1]).
Proof.
  induction k as [| k IH]; [done |].
  rewrite Nat.iter_succ. destruct IH as (Hq & Hp & Hn).
  split; [exact Hq |]. split; [exact Hp |].
  unfold apply_operation_back at 1. cbn [op_nodes].
  rewrite fmap_app, Hn, replicate_S_end. reflexivity.
Qed.

Lemma fold_dag_facts (fold_factor : Z) v control target :
  qargs v = [control; target] →
  num_qubits (fold_dag fold_factor v) = 2 ∧
  expansion v (fold_dag fold_factor v) = replicate (Z.to_nat fold_factor) (gate_of v).
Proof.
  intros Hq. unfold fold_dag.
  destruct (fold_dag_nodes (Z.to_nat fold_factor) (op v)) as (Hqb & _ & Hn).
  split; [exact Hqb |]. unfold expansion.
  change (fun n => (op n, map (map_wire v) (qargs n)))
    with ((fun oq : string * list nat => (oq.1, map (map_wire v) oq.2))
            ∘ (fun n => (op n, qargs n))).
  rewrite list_fmap_compose, Hn, fmap_replicate.
  unfold gate_of, map_wire. cbn [fst snd map]. rewrite Hq. reflexivity.
Qed.

Lemma fold_dag_qubits (fold_factor : Z) v : num_qubits (fold_dag fold_factor v) = 2.
Proof. apply (fold_dag_nodes (Z.to_nat fold_factor) (op v)). Qed.

Lemma folding_body_eq (odd_fold_factor : Z) (indices : list nat) dag (idx : nat) v :
  folding_body odd_fold_factor indices (dag, idx) v =
  dag1 ← substitute_node_with_dag dag v
            (fold_dag (if bool_decide (idx ∈ indices) then odd_fold_factor else 1%Z) v);
  mret (dag1, S idx).
Proof. reflexivity. Qed.

Lemma folding_loop (odd_fold_factor : Z) (indices : list nat) visits :
  ∀ dag idx,
    for_each (folding_body odd_fold_factor indices) (dag, idx) visits =
    dag' ← substitute_all
              (imap (fun k v =>
                       (v, fold_dag (if bool_decide (idx + k ∈ indices)
                                     then odd_fold_factor else 1%Z) v)) visits) dag;
    mret (dag', idx + length visits).
Proof.
  induction visits as [| v visits IH]; intros dag idx.
  - cbn. by rewrite Nat.add_0_r.
  - cbn [for_each]. rewrite folding_body_eq, imap_cons.
    unfold substitute_all. cbn [for_each fst snd]. rewrite Nat.add_0_r.
    destruct (substitute_node_with_dag dag v _) as [dag1 | e]; [| reflexivity].
    cbn [mbind result_bind mret result_ret]. rewrite IH.
    assert (Hext : imap (fun k v0 =>
                      (v0, fold_dag (if bool_decide (S idx + k ∈ indices)
                                     then odd_fold_factor else 1%Z) v0)) visits
                 = imap ((fun k v0 =>
                      (v0, fold_dag (if bool_decide (idx + k ∈ indices)
                                     then odd_fold_factor else 1%Z) v0)) ∘ S) visits).
    { apply imap_ext. intros k x _. unfold compose.
      by replace (S idx + k) with (idx + S k) by lia. }
    rewrite Hext. unfold substitute_all.
    destruct (for_each _ dag1 _) as [dag' | e]; [| reflexivity].
    cbn [mbind result_bind mret result_ret length].
    by replace (S idx + length visits) with (idx + S (length visits)) by lia.
Qed.

(** The length of a graph in which some nodes are tripled. *)
Lemma flat_map_tripled {B} (f : DAGOpNode → list B) (gate : string)
    (nodes : list DAGOpNode) :
  (∀ n, n ∈ nodes → length (f n) = if decide (op n = gate) then 3 else 1) →
  length (flat_map f nodes)
  = length nodes + 2 * length (filter (fun n => op n = gate) nodes).
Proof.
  induction nodes as [| n nodes IH]; intros H; [reflexivity |].
  cbn [flat_map]. rewrite length_app, filter_cons.
  rewrite (H n) by apply list_elem_of_here.
  rewrite IH by (intros x Hx; apply H; by apply list_elem_of_further).
  destruct (decide (op n = gate)); cbn [length]; lia.
Qed.

End Folding.

(** C6. With a scale factor equal to 1 the folding pass returns the
    graph it was given: same nodes, same counts, same global phase; the
    random state is not used. *)
Theorem folding_scale_one_noop (self : Local2qFolding) (dag : DAGCircuit) (g : BitGenerator)
    (table_order : list nat) :
  (scale_factor self == 1)%Q →
  ∃ dag',
    Local2qFolding_run self dag g table_order = Ok (dag', g) ∧
    dag' = dag ∧
    op_nodes dag' = op_nodes dag ∧
    count_ops dag' = count_ops dag ∧
    global_phase dag' = global_phase dag.
Proof.
  intros Hsf. exists dag. split; [| done].
  unfold Local2qFolding_run. apply Qeq_bool_iff in Hsf. by rewrite Hsf.
Qed.

Lemma folding_scale_one_noop_witness :
  ∃ dag',
    Local2qFolding_run (mkLocal2qFolding (2 # 2) "cx") example_dag example_generator [2]
      = Ok (dag', example_generator) ∧
    dag' = example_dag ∧
    op_nodes dag' = op_nodes example_dag ∧
    count_ops dag' = count_ops example_dag ∧
    global_phase dag' = global_phase example_dag.
Proof.
  assert (H : (scale_factor (mkLocal2qFolding (2 # 2) "cx") == 1)%Q) by reflexivity.
  exact (folding_scale_one_noop (mkLocal2qFolding (2 # 2) "cx") example_dag
           example_generator [2] H).
Defined.

(** C8. On a graph without any occurrence of the folding gate, the pass
    with a scale factor different from 1 fails on the lookup of the
    count of the gate, and the pass with a scale factor equal to 1
    returns the graph as it is. *)
Theorem folding_absent_gate (self : Local2qFolding) (dag : DAGCircuit) (g : BitGenerator)
    (table_order : list nat) :
  occurrences (folding_gate self) dag = [] →
  count_ops dag !! folding_gate self = None ∧
  (¬ (scale_factor self == 1)%Q →
     Local2qFolding_run self dag g table_order = Raise KeyError) ∧
  ((scale_factor self == 1)%Q →
     Local2qFolding_run self dag g table_order = Ok (dag, g)).
Proof.
  intros Hocc.
  assert (Hcount : count_ops dag !! folding_gate self = None)
    by (by rewrite count_ops_lookup, Hocc).
  split; [exact Hcount |]. unfold Local2qFolding_run. split; intros Hsf.
  - destruct (Qeq_bool (scale_factor self) 1) eqn:He.
    + exfalso. apply Hsf. by apply Qeq_bool_iff.
    + by rewrite Hcount.
  - apply Qeq_bool_iff in Hsf. by rewrite Hsf.
Qed.

Lemma folding_absent_gate_witness :
  Local2qFolding_run (mkLocal2qFolding 3 "cz") example_dag example_generator []
    = Raise KeyError ∧
  Local2qFolding_run (mkLocal2qFolding 1 "cz") example_dag example_generator []
    = Ok (example_dag, example_generator).
Proof.
  assert (H : occurrences "cz" example_dag = []) by reflexivity.
  split.
  - apply (folding_absent_gate (mkLocal2qFolding 3 "cz") example_dag example_generator [] H).
    discriminate.
  - apply (folding_absent_gate (mkLocal2qFolding 1 "cz") example_dag example_generator [] H).
    reflexivity.
Defined.

(** C10. On a graph without any occurrence of the twirling gate,
    [PauliTwirling.run] returns the graph as it is: no substitution is
    made, no index is drawn, the global phase is the same. *)
Theorem twirling_absent_gate (self : PauliTwirling) (dag : DAGCircuit)
    (table_order : list nat) :
  occurrences (twirling_gate self) dag = [] →
  PauliTwirling_run_log self dag table_order = Ok (dag, self, []) ∧
  PauliTwirling_run self dag table_order = Ok (dag, self).
Proof.
  intros Hocc.
  assert (Hlog : PauliTwirling_run_log self dag table_order = Ok (dag, self, [])).
  { unfold PauliTwirling_run_log.
    rewrite (collect_runs_no_occurrence _ _ Hocc). cbn. by destruct self. }
  split; [exact Hlog |]. unfold PauliTwirling_run. by rewrite Hlog.
Qed.

Lemma twirling_absent_gate_witness :
  PauliTwirling_run (mkPauliTwirling "cz" cz_twirling_sets 16 example_generator)
                    example_dag [0]
    = Ok (example_dag, mkPauliTwirling "cz" cz_twirling_sets 16 example_generator).
Proof.
  assert (H : occurrences "cz" example_dag = []) by reflexivity.
  exact (proj2 (twirling_absent_gate
                  (mkPauliTwirling "cz" cz_twirling_sets 16 example_generator)
                  example_dag [0] H)).
Defined.

(** C7. With a scale factor that is above 1 as a float (and at most
    2^50, like the number of occurrences), the folding pass meets the
    occurrences of the folding gate, numbers them in the order it meets
    them, and replaces each one whose number is among the selected
    indices by [odd_fold_factor] consecutive copies of the same gate on
    the same qubits; an occurrence that is not selected stays single and
    the other nodes stay.  With a scale factor of 3 and N occurrences,
    [odd_fold_factor] is 3, all N occurrences are selected, each becomes
    three copies, and the graph has 2*N nodes more. *)
Theorem folding_run_folds (self : Local2qFolding) (dag : DAGCircuit) (g : BitGenerator)
    (table_order : list nat) :
  (1 < Binary64.round (scale_factor self))%Q →
  (scale_factor self <= inject_Z (2 ^ 50))%Q →
  (Z.of_nat (length (occurrences (folding_gate self) dag)) ≤ 2 ^ 50)%Z →
  wf_dag dag →
  two_qubit_occurrences (folding_gate self) dag →
  occurrences (folding_gate self) dag ≠ [] →
  let gate := folding_gate self in
  let N := length (occurrences gate dag) in
  let odd_fold_factor := _next_odd_if_not_odd (scale_factor self) in
  let visits := encounter_order gate dag table_order in
  visits ≡ₚ occurrences gate dag ∧
  (∀ n, n ∈ occurrences gate dag → ∃ idx, encounter_index visits n = Some idx ∧ idx < N) ∧
  ∃ indices g' dag',
    _get_2q_gate_indices_to_be_folded N (scale_factor self) odd_fold_factor g
      = Ok (indices, g') ∧
    Local2qFolding_run self dag g table_order = Ok (dag', g') ∧
    gate_of <$> op_nodes dag' = flat_map (folded odd_fold_factor indices visits) (op_nodes dag) ∧
    (∀ n, n ∈ op_nodes dag → op n ≠ gate →
       folded odd_fold_factor indices visits n = [gate_of n]) ∧
    (∀ n idx, encounter_index visits n = Some idx →
       (idx ∈ indices →
        folded odd_fold_factor indices visits n
          = replicate (Z.to_nat odd_fold_factor) (gate_of n)) ∧
       (idx ∉ indices → folded odd_fold_factor indices visits n = [gate_of n])) ∧
    ((scale_factor self == 3)%Q →
       odd_fold_factor = 3%Z ∧
       num_2q_gates_to_be_folded N (scale_factor self) odd_fold_factor = Ok (Z.of_nat N) ∧
       length indices = N ∧
       (∀ n, n ∈ occurrences gate dag →
          folded odd_fold_factor indices visits n = replicate 3 (gate_of n)) ∧
       length (op_nodes dag') = length (op_nodes dag) + 2 * N).
Proof.
  intros Hr Hb HN Hwf H2q Hne gate N odd_fold_factor visits.
  pose proof (round_gt_1 _ Hr) as Hsf. fold gate N in HN.
  destruct (encounter_order_facts gate dag table_order Hwf)
    as (Hperm & Hlen & Hnd & Hsub & Hop & Hocc & Hother).
  fold visits N in Hperm, Hlen, Hnd, Hsub, Hop, Hocc, Hother.
  split; [exact Hperm |]. split; [exact Hocc |].
  destruct (num_to_fold_ok N (scale_factor self) Hr Hb HN) as (num_to_fold & Hnum & Hbounds).
  fold odd_fold_factor in Hnum.
  destruct (choice_spec N num_to_fold g Hbounds)
    as (indices & g' & Hchoice & _ & Hilen & _ & _).
  assert (Hget : _get_2q_gate_indices_to_be_folded N (scale_factor self) odd_fold_factor g
                 = Ok (indices, g')).
  { unfold _get_2q_gate_indices_to_be_folded. rewrite Hnum. exact Hchoice. }
  assert (Hqargs : ∀ v, v ∈ visits → length (qargs v) = 2).
  { intros v Hv. unfold two_qubit_occurrences in H2q. rewrite Forall_forall in H2q.
    apply H2q; [by apply Hsub | by apply Hop]. }
  destruct (substitute_all_spec
              (imap (fun k v =>
                       (v, fold_dag (if bool_decide (0 + k ∈ indices)
                                     then odd_fold_factor else 1%Z) v)) visits) dag Hwf)
    as (dag' & Hrun & _ & _ & Hgates & _).
  { by rewrite imap_plan_ids. }
  { apply imap_plan_Forall. intros k v Hv. cbn [fst snd].
    assert (v ∈ visits) by (by eapply list_elem_of_lookup_2).
    split; [by apply Hsub |]. rewrite fold_dag_qubits. by apply Hqargs. }
  assert (Hgates' : gate_of <$> op_nodes dag'
                    = flat_map (folded odd_fold_factor indices visits) (op_nodes dag)).
  { rewrite Hgates. apply flat_map_ext_in. intros n Hn.
    destruct Hwf as [Hids _].
    rewrite (rewritten_imap (op_nodes dag)) by done. unfold folded.
    destruct (encounter_index visits n) as [k |] eqn:Hk; [| reflexivity].
    destruct (encounter_index_self (op_nodes dag) visits n k Hids Hsub Hn Hk) as [Hv _].
    apply list_elem_of_lookup_2 in Hv.
    destruct (two_qargs n (Hqargs n Hv)) as (c & t & Hq).
    cbn [Nat.add]. by destruct (fold_dag_facts (if bool_decide (k ∈ indices)
                                    then odd_fold_factor else 1%Z) n c t Hq) as [_ ->]. }
  exists indices, g', dag'. split; [exact Hget |]. split.
  { unfold Local2qFolding_run.
    destruct (Qeq_bool (scale_factor self) 1) eqn:He.
    { apply Qeq_bool_iff in He. rewrite He in Hsf. discriminate. }
    rewrite count_ops_lookup. fold gate.
    destruct (occurrences gate dag) as [| o occ] eqn:Hoc; [done |].
    change (length (o :: occ)) with N. fold odd_fold_factor. rewrite Hget.
    cbn [mbind result_bind]. rewrite for_each_concat.
    change (concat (set_iteration table_order (collect_runs dag [gate]))) with visits.
    rewrite folding_loop, Hrun. reflexivity. }
  split; [exact Hgates' |].
  split; [intros n Hn Hnop; unfold folded; by rewrite (Hother n Hn Hnop) |].
  split.
  { intros n idx Hidx. unfold folded. rewrite Hidx. split; intros Hin.
    - by rewrite bool_decide_true.
    - by rewrite bool_decide_false. }
  intros H3.
  destruct (num_to_fold_three N (scale_factor self) H3 HN) as [Hodd Hthree].
  fold odd_fold_factor in Hodd.
  assert (Hn3 : num_to_fold = Z.of_nat N).
  { pose proof Hnum as Hnum'. rewrite Hodd, Hthree in Hnum'. by injection Hnum'. }
  assert (Hall : ∀ n, n ∈ occurrences gate dag →
            folded odd_fold_factor indices visits n = replicate 3 (gate_of n)).
  { intros n Hn. destruct (Hocc n Hn) as (idx & Hidx & Hlt).
    unfold folded. rewrite Hidx, bool_decide_true, Hodd; [reflexivity |].
    rewrite Hn3 in Hchoice. by apply (choice_all N g indices g'). }
  split; [exact Hodd |]. split; [by rewrite Hnum, Hn3 |].
  split; [by rewrite Hilen, Hn3, Nat2Z.id |]. split; [exact Hall |].
  rewrite <- (length_fmap gate_of (op_nodes dag')), Hgates'.
  apply flat_map_tripled. intros n Hn.
  destruct (decide (op n = gate)) as [Hopn | Hopn].
  - rewrite Hall; [apply length_replicate |]. by apply list_elem_of_filter.
  - unfold folded. by rewrite (Hother n Hn Hopn).
Qed.

Lemma folding_run_folds_witness :
  ∃ indices g' dag',
    _get_2q_gate_indices_to_be_folded 4 3 3 example_generator = Ok (indices, g') ∧
    Local2qFolding_run (mkLocal2qFolding 3 "cx") example_dag example_generator [2; 0]
      = Ok (dag', g') ∧
    length indices = 4 ∧
    length (op_nodes dag') = length (op_nodes example_dag) + 2 * 4.
Proof.
  assert (H1 : (1 < Binary64.round (scale_factor (mkLocal2qFolding 3 "cx")))%Q)
    by reflexivity.
  assert (Hb : (scale_factor (mkLocal2qFolding 3 "cx") <= inject_Z (2 ^ 50))%Q)
    by discriminate.
  assert (HN : (Z.of_nat (length (occurrences (folding_gate (mkLocal2qFolding 3 "cx"))
                                              example_dag)) ≤ 2 ^ 50)%Z)
    by (vm_compute; discriminate).
  assert (H2 : occurrences "cx" example_dag ≠ []) by discriminate.
  assert (H3 : (scale_factor (mkLocal2qFolding 3 "cx") == 3)%Q) by reflexivity.
  destruct (folding_run_folds (mkLocal2qFolding 3 "cx") example_dag example_generator [2; 0]
              H1 Hb HN example_dag_wf example_dag_two_qubit H2)
    as (_ & _ & indices & g' & dag' & Hget & Hrun & _ & _ & _ & Hthree).
  destruct (Hthree H3) as (_ & _ & Hlen & _ & Hnodes).
  exists indices, g', dag'. auto.
Defined.

(** * Determinism of the twirling pass *)

(** C4, as the claim states it, fails: two transforms constructed with
    the same seed and run on the same graph make different sequences of
    substitutions when the set of runs is iterated in different orders. *)
Lemma twirling_order_matters :
  substitutions_of (twirl_once (fun seed k => seed + k) "cx" (Some 0) 0 example_dag [0])
  ≠ substitutions_of (twirl_once (fun seed k => seed + k) "cx" (Some 0) 0 example_dag [1]).
Proof.
  assert (Hd : ∀ a b : option (list (DAGOpNode * nat)), bool_decide (a = b) = false → a ≠ b)
    by (intros a b; apply bool_decide_eq_false).
  apply Hd. vm_compute. reflexivity.
Qed.

Section Determinism.

Variable seeded_stream : nat → nat → nat.

(** C4, amended. Two transforms constructed with the same seed and run
    on the same graph, whatever the entropy available when each is
    constructed: if they iterate the set of runs in the same order they
    end in the same way, with the same substitutions of the same nodes,
    the same final graph and the same state of the generator; and in
    whatever orders they iterate it, they draw the same sequence of
    indices and end with the same global phase. *)
Theorem twirling_deterministic (gate : string) (seed : nat)
    (os_entropy1 os_entropy2 : nat) (dag : DAGCircuit) (table_order1 table_order2 : list nat) :
  wf_dag dag → two_qubit_occurrences gate dag →
  twirl_once seeded_stream gate (Some seed) os_entropy1 dag table_order1
    = twirl_once seeded_stream gate (Some seed) os_entropy2 dag table_order1 ∧
  substitutions_of
      (twirl_once seeded_stream gate (Some seed) os_entropy1 dag table_order1)
    = substitutions_of
        (twirl_once seeded_stream gate (Some seed) os_entropy2 dag table_order1) ∧
  drawn_indices_of
      (twirl_once seeded_stream gate (Some seed) os_entropy1 dag table_order1)
    = drawn_indices_of
        (twirl_once seeded_stream gate (Some seed) os_entropy2 dag table_order2) ∧
  final_phase_of
      (twirl_once seeded_stream gate (Some seed) os_entropy1 dag table_order1)
    = final_phase_of
        (twirl_once seeded_stream gate (Some seed) os_entropy2 dag table_order2).
Proof.
  intros Hwf H2q.
  assert (Hinit : PauliTwirling_init seeded_stream gate (Some seed) os_entropy1
                  = PauliTwirling_init seeded_stream gate (Some seed) os_entropy2).
  { unfold PauliTwirling_init, default_rng. reflexivity. }
  assert (Hsame : twirl_once seeded_stream gate (Some seed) os_entropy1 dag table_order1
                  = twirl_once seeded_stream gate (Some seed) os_entropy2 dag
                      table_order1).
  { unfold twirl_once. by rewrite Hinit. }
  split; [exact Hsame |]. split; [by rewrite Hsame |].
  unfold twirl_once. rewrite <- Hinit. unfold PauliTwirling_init.
  destruct (generate_pauli_twirling_sets gate) as [sets | e] eqn:Hgen; [| done].
  cbn [mbind result_bind mret result_ret].
  set (self := mkPauliTwirling gate sets (length sets)
                 (default_rng seeded_stream (Some seed) os_entropy1)).
  assert (Hcons : constructed self) by (split; [exact Hgen | reflexivity]).
  destruct (twirling_run_result self dag table_order1 Hcons Hwf H2q)
    as (dag1 & Hlog1 & _ & Hphase1).
  destruct (twirling_run_result self dag table_order2 Hcons Hwf H2q)
    as (dag2 & Hlog2 & _ & Hphase2).
  rewrite Hlog1, Hlog2. cbn [drawn_indices_of final_phase_of].
  split; [| by rewrite Hphase1, Hphase2].
  f_equal. unfold twirl_log. rewrite !fmap_imap.
  destruct (encounter_order_facts (twirling_gate self) dag table_order1 Hwf)
    as (_ & Hlen1 & _).
  destruct (encounter_order_facts (twirling_gate self) dag table_order2 Hwf)
    as (_ & Hlen2 & _).
  rewrite (imap_ext _ (fun k _ => draw (rng self) (twirling_len self) k)) by done.
  rewrite (imap_ext (fun k => _ ∘ _) (fun k _ => draw (rng self) (twirling_len self) k))
    by done.
  rewrite !imap_seq_0. by rewrite Hlen1, Hlen2.
Qed.

End Determinism.

Lemma twirling_deterministic_witness :
  drawn_indices_of (twirl_once (fun seed k => seed + k) "cx" (Some 0) 1 example_dag [0])
    = drawn_indices_of (twirl_once (fun seed k => seed + k) "cx" (Some 0) 2 example_dag [1]) ∧
  final_phase_of (twirl_once (fun seed k => seed + k) "cx" (Some 0) 1 example_dag [0])
    = final_phase_of (twirl_once (fun seed k => seed + k) "cx" (Some 0) 2 example_dag [1]).
Proof.
  exact (proj2 (proj2 (twirling_deterministic (fun seed k => seed + k) "cx" 0 1 2
                         example_dag [0] [1] example_dag_wf example_dag_two_qubit))).
Defined.

(** Without a seed the substitutions depend on the entropy. *)
Example unseeded_runs_differ :
  substitutions_of (twirl_once (fun seed k => seed + k) "cx" None 0 example_dag [])
  ≠ substitutions_of (twirl_once (fun seed k => seed + k) "cx" None 1 example_dag []).
Proof.
  assert (Hd : ∀ a b : option (list (DAGOpNode * nat)), bool_decide (a = b) = false → a ≠ b)
    by (intros a b; apply bool_decide_eq_false).
  apply Hd. vm_compute. reflexivity.
Qed.

(** * Rounding in the number of gates to fold *)

(** C5. With a scale factor of 2.4 and 90 occurrences the odd fold factor
    is 3 and floor(N*(scale_factor-1)/(odd_fold_factor-1)) is
    floor(90*1.4/2) = 63; the code, which multiplies and divides in
    double precision, gets 62.99999999999999 and selects 62 indices. *)
Theorem num_to_fold_rounding :
  _next_odd_if_not_odd (12 # 5) = 3%Z ∧
  Qfloor (inject_Z (Z.of_nat 90) * ((12 # 5) - 1) / (inject_Z 3 - 1)) = 63%Z ∧
  num_to_fold_spec 90 (12 # 5) 3 = 63%Z ∧
  num_2q_gates_to_be_folded 90 (12 # 5) 3 = Ok 62%Z ∧
  num_2q_gates_to_be_folded_binary64 90 (12 # 5) 3 = Some 62%Z ∧
  PrimFloat.ltb
    (PrimFloat.div (PrimFloat.mul (float_of_Z 90) (float_of_Q ((12 # 5) - 1)))
                   (float_of_Q (inject_Z 3 - 1)))
    (float_of_Z 63) = true.
Proof. vm_compute. repeat split. Qed.

